(** * tarfs: the tar index and the block reader of the driver

    A shallow embedding of [device.c], [tar.c] and the lookup helpers of
    [driver.c].  The C code is modelled for an LP64 kernel: [size_t],
    [unsigned long] and [off_t] are 64 bits wide, [unsigned int] is 32 bits
    wide and [umode_t] is 16 bits wide.  Integers are values of [Z] and every
    conversion the C code performs is written out with [u16], [u32], [u64]
    and [s64].  Memory is a list of bytes in address order. *)

From Stdlib Require Import ZArith List Lia Bool Strings.Byte String.
Import ListNotations.
Open Scope Z_scope.

(** ** Machine integers *)

Definition u16 (x : Z) : Z := x mod 2 ^ 16.
Definition u32 (x : Z) : Z := x mod 2 ^ 32.
Definition u64 (x : Z) : Z := x mod 2 ^ 64.

(** Conversion of a 64-bit pattern to the signed type [off_t] / [long]. *)
Definition s64 (x : Z) : Z :=
  let y := u64 x in if y <? 2 ^ 63 then y else y - 2 ^ 64.

(** [min_t(size_t, a, b)]: both operands are converted to [size_t] first. *)
Definition min_t_size_t (a b : Z) : Z := Z.min (u64 a) (u64 b).

Definition Z_of_byte (b : byte) : Z := Z.of_N (Byte.to_N b).

(** ** Outcomes of a C function

    [Ret v]  the function returns [v];
    [Fault]  the function leaves the behaviour C defines (it dereferences
             [NULL], divides by zero or reads outside an object): in the
             kernel this is an oops, never a value handed to the caller;
    [Spin]   the loop did not finish within the fuel it was given. *)

Inductive outcome (A : Type) : Type :=
| Ret (a : A)
| Fault
| Spin.
Arguments Ret {A} a.
Arguments Fault {A}.
Arguments Spin {A}.

Definition bind {A B : Type} (m : outcome A) (k : A -> outcome B) : outcome B :=
  match m with
  | Ret a => k a
  | Fault => Fault
  | Spin => Spin
  end.

Notation "x <- m ;; k" := (bind m (fun x => k))
  (at level 61, m at next level, right associativity).
Notation "' p <- m ;; k" := (bind m (fun x => let p := x in k))
  (at level 61, p pattern, m at next level, right associativity).

(** ** The block device (linux/buffer_head.h, linux/fs.h)

    A [buffer_head] carries the size the block layer gave the block and the
    memory [b_data] points at.  [sb_bread] yields [None] for the [NULL] the
    kernel returns when a block cannot be read. *)

Record buffer_head : Type := {
  b_size : Z;
  b_data : list byte
}.

Record super_block : Type := {
  s_blocksize : Z;
  sb_bread : Z -> option buffer_head
}.

(** [memcpy(dst, src + off, n)]: the [n] bytes stored to [dst].  A byte the
    list [src] does not hold is memory behind the object; it reads as zero. *)
Definition memcpy (src : list byte) (off n : Z) : list byte :=
  map (fun i => nth (Z.to_nat (off + Z.of_nat i)) src x00) (seq 0 (Z.to_nat n)).

(** ** device.c *)

(** The loop of [tarfs_read].  [buffer] is the sequence of bytes stored
    through the destination pointer so far, so [buffer += inner_size] is
    the append. *)
Fixpoint tarfs_read_loop (fuel : nat) (sb : super_block) (buffer : list byte)
    (size offset pos : Z) : outcome (Z * list byte) :=
  if size >? 0 then
    match fuel with
    | O => Spin
    | S fuel' =>
      if s_blocksize sb =? 0 then Fault else
      let block := u32 (u64 (offset + pos) / s_blocksize sb) in
      let inner_off := s64 (u64 (offset + pos) mod s_blocksize sb) in
      let inner_size := min_t_size_t (s_blocksize sb - inner_off) size in
      match sb_bread sb block with
      | None => Fault                       (* pr_err, then bh->b_size *)
      | Some bh =>
        (* bh->b_size != sb->s_blocksize: pr_err only, the copy goes on *)
        let buffer' := buffer ++ memcpy (b_data bh) inner_off inner_size in
        tarfs_read_loop fuel' sb buffer'
          (u64 (size - inner_size)) offset (u64 (pos + inner_size))
      end
    end
  else Ret (pos, buffer).

(** [tarfs_read(buffer, size, offset, sb)]: the count returned and the bytes
    stored to [buffer].  Every round of the loop consumes at least one byte,
    so [size] rounds are enough fuel. *)
Definition tarfs_read (size offset : Z) (sb : super_block)
  : outcome (Z * list byte) :=
  tarfs_read_loop (Z.to_nat size) sb [] size offset 0.

(** ** C strings and the kernel's number parser (lib/string.c, lib/kstrtox.c)

    A C string argument is the memory from the pointer to the end of the
    object it points into; the string ends at the first NUL. *)

(** [memcmp(a, b, n)]. *)
Fixpoint memcmp (a b : list byte) (n : nat) : Z :=
  match n with
  | O => 0
  | S n' =>
    let x := hd x00 a in
    let y := hd x00 b in
    if Byte.eqb x y then memcmp (tl a) (tl b) n'
    else Z_of_byte x - Z_of_byte y
  end.

(** [memchr(s, c, n) - s], or [None] for [NULL]. *)
Fixpoint memchr (s : list byte) (c : byte) (n : nat) : option Z :=
  match n, s with
  | S n', x :: s' =>
    if Byte.eqb x c then Some 0
    else option_map Z.succ (memchr s' c n')
  | _, _ => None
  end.

(** [strcmp(a, b)]: the end of the list stands for the terminating NUL. *)
Fixpoint strcmp (a b : list byte) : Z :=
  let x := hd x00 a in
  let y := hd x00 b in
  if Byte.eqb x y then
    if Byte.eqb x x00 then 0
    else match a, b with
         | _ :: a', _ :: b' => strcmp a' b'
         | _, _ => 0
         end
  else Z_of_byte x - Z_of_byte y.

(** [strrchr(s, c) - s] for [c] other than NUL, or [None] for [NULL]. *)
Fixpoint strrchr (s : list byte) (c : byte) : option Z :=
  match s with
  | [] => None
  | x :: s' =>
    if Byte.eqb x x00 then None
    else match strrchr s' c with
         | Some i => Some (i + 1)
         | None => if Byte.eqb x c then Some 0 else None
         end
  end.

Definition ULLONG_MAX : Z := 2 ^ 64 - 1.

(** [_tolower]: sets bit 5. *)
Definition _tolower (c : Z) : Z := Z.lor c 32.

(** The value of a digit character, if it is one. *)
Definition digit_val (c : Z) : option Z :=
  if (48 <=? c) && (c <=? 57) then Some (c - 48)
  else if (97 <=? _tolower c) && (_tolower c <=? 102)
       then Some (_tolower c - 97 + 10)
       else None.

(** [_parse_integer]: the rest of the string, the value, the number of
    digits taken and the overflow flag.  A string that runs to the end of
    its object without a terminator is read past the object. *)
Fixpoint _parse_integer (s : list byte) (base res rv : Z) (overflow : bool)
  : outcome (list byte * Z * Z * bool) :=
  match s with
  | [] => Fault
  | c :: s' =>
    if Z_of_byte c =? 0 then Ret (s, res, rv, overflow) else
    match digit_val (Z_of_byte c) with
    | None => Ret (s, res, rv, overflow)
    | Some val =>
      if val >=? base then Ret (s, res, rv, overflow) else
      let overflow :=
        if negb (Z.land res (u64 (Z.shiftl ULLONG_MAX 60)) =? 0)
        then (if res >? (ULLONG_MAX - val) / base then true else overflow)
        else overflow in
      _parse_integer s' base (u64 (res * base + val)) (rv + 1) overflow
    end
  end.

(** [kstrtoull(s, base, &res)] for a base other than 0 and 16:
    [Some res] when it returns 0, [None] when it returns an error code. *)
Definition kstrtoull (s : list byte) (base : Z) : outcome (option Z) :=
  let s := match s with
           | c :: s' => if Byte.eqb c x2b then s' else s
           | [] => s
           end in
  '(s, res, rv, overflow) <- _parse_integer s base 0 0 false ;;
  if overflow : bool then Ret None else
  if rv =? 0 then Ret None else
  match s with
  | [] => Fault
  | c :: s' =>
    if Byte.eqb c x0a then
      match s' with
      | [] => Fault
      | c' :: _ => if Byte.eqb c' x00 then Ret (Some res) else Ret None
      end
    else if Byte.eqb c x00 then Ret (Some res) else Ret None
  end.

(** [kstrtouint]: a value that does not fit 32 bits is [-ERANGE]. *)
Definition kstrtouint (s : list byte) (base : Z) : outcome (option Z) :=
  tmp <- kstrtoull s base ;;
  match tmp with
  | None => Ret None
  | Some tmp => if negb (tmp =? u32 tmp) then Ret None else Ret (Some tmp)
  end.

(** [kstrtoul]: [unsigned long] is [unsigned long long] on LP64. *)
Definition kstrtoul (s : list byte) (base : Z) : outcome (option Z) :=
  kstrtoull s base.

(** ** linux/stat.h *)

Definition S_IFREG : Z := 32768.  (* 0100000 *)
Definition S_IFDIR : Z := 16384.  (* 0040000 *)
Definition S_IFLNK : Z := 40960.  (* 0120000 *)
Definition S_IFCHR : Z := 8192.   (* 0020000 *)
Definition S_IFBLK : Z := 24576.  (* 0060000 *)
Definition S_IFIFO : Z := 4096.   (* 0010000 *)

Definition ENOMEM : Z := 12.

(** ** gnutar.h

    The header file with [struct star_header], [OLDGNU_MAGIC] and the type
    flags is not among the sources.  Its declarations are taken as
    parameters: the place and the width of every member the code touches,
    the size of the structure, the magic string (with its terminating NUL)
    and the seven type flags. *)

Record member : Type := {
  offsetof : Z;
  sizeof : Z
}.

Class gnutar_h : Type := {
  sizeof_star_header : Z;
  star_name : member;
  star_mode : member;
  star_uid : member;
  star_gid : member;
  star_size : member;
  star_mtime : member;
  star_typeflag : member;
  star_linkname : member;
  star_magic : member;
  star_prefix : member;
  star_atime : member;
  star_ctime : member;
  OLDGNU_MAGIC : list byte;
  REGTYPE : byte;
  AREGTYPE : byte;
  DIRTYPE : byte;
  SYMTYPE : byte;
  CHRTYPE : byte;
  BLKTYPE : byte;
  FIFOTYPE : byte
}.

(** A [struct star_header] in memory: its bytes. *)
Definition star_header : Type := list byte.

(** [header.m] used as a pointer: the memory from the member to the end of
    the structure. *)
Definition at_member (header : star_header) (m : member) : list byte :=
  skipn (Z.to_nat (offsetof m)) header.

(** ** tar.h *)

Record tar_entry : Type := {
  header : star_header;
  dirname : list byte;
  basename : list byte;
  offset : Z;
  data_offset : Z;
  length : Z;
  inode : Z;
  mode : Z;
  uid : Z;
  gid : Z;
  atime : Z;
  mtime : Z;
  ctime : Z
}.

(** [entry->inode = count]. *)
Definition set_inode (entry : tar_entry) (count : Z) : tar_entry :=
  {| header := header entry; dirname := dirname entry;
     basename := basename entry; offset := offset entry;
     data_offset := data_offset entry; length := length entry;
     inode := count; mode := mode entry; uid := uid entry; gid := gid entry;
     atime := atime entry; mtime := mtime entry; ctime := ctime entry |}.

(** ** tar.c *)

(** [ALIGN_SECTOR(x)]; [%] is C's remainder, which takes the sign of [x]. *)
Definition ALIGN_SECTOR (x : Z) : Z :=
  if Z.rem x 512 >? 0 then 512 - Z.rem x 512 else 0.

Definition OCTAL : Z := 8.

(** A parse whose failure makes the caller return [NULL]. *)
Notation "x <-? m ;; k" :=
  (bind m (fun o => match o with
                    | Some x => k
                    | None => Ret None
                    end))
  (at level 61, m at next level, right associativity).

Section Tar.
Context {H : gnutar_h}.

Definition tar_type_to_posix (typeflag : byte) : Z :=
  if Byte.eqb typeflag REGTYPE || Byte.eqb typeflag AREGTYPE then S_IFREG
  else if Byte.eqb typeflag DIRTYPE then S_IFDIR
  else if Byte.eqb typeflag SYMTYPE then S_IFLNK
  else if Byte.eqb typeflag CHRTYPE then S_IFCHR
  else if Byte.eqb typeflag BLKTYPE then S_IFBLK
  else if Byte.eqb typeflag FIFOTYPE then S_IFIFO
  else 0.

(** [header.typeflag]. *)
Definition typeflag (header : star_header) : byte :=
  hd x00 (at_member header star_typeflag).

(** [build_name]: the string it returns.  [kmalloc] is taken to succeed.
    A member without a NUL makes [memchr] return [NULL], whose difference
    to the member is not defined; an empty name makes the test for the
    slash read [name[-1]]. *)
Definition build_name (header : star_header) : outcome (list byte) :=
  match memchr (at_member header star_prefix) x00
               (Z.to_nat (sizeof star_prefix)),
        memchr (at_member header star_name) x00
               (Z.to_nat (sizeof star_name)) with
  | Some prefix_len, Some name_len =>
    let name := memcpy (at_member header star_prefix) 0 prefix_len
                ++ memcpy (at_member header star_name) 0 name_len in
    if prefix_len + name_len =? 0 then Fault else
    if Byte.eqb (nth (Z.to_nat (prefix_len + name_len - 1)) name x00) x2f
    then Ret (firstn (Z.to_nat (prefix_len + name_len - 1)) name)
    else Ret name
  | _, _ => Fault
  end.

(** [tar_read_entry]: [None] for [NULL].  [kzalloc] leaves [inode] zero. *)
Definition tar_read_entry (sb : super_block) (offset : Z)
  : outcome (option tar_entry) :=
  '(n, header) <- tarfs_read (u64 sizeof_star_header) offset sb ;;
  if negb (n =? u64 sizeof_star_header) then Ret None else
  if negb (memcmp (at_member header star_magic) OLDGNU_MAGIC
                  (Z.to_nat (sizeof star_magic)) =? 0) then Ret None else
  length <-? kstrtouint (at_member header star_size) OCTAL ;;
  mode <-? kstrtouint (at_member header star_mode) OCTAL ;;
  uid <-? kstrtouint (at_member header star_uid) OCTAL ;;
  gid <-? kstrtouint (at_member header star_gid) OCTAL ;;
  m <- kstrtoul (at_member header star_mtime) OCTAL ;;
  let mtime := match m with Some t => s64 t | None => 0 end in
  a <- kstrtoul (at_member header star_atime) OCTAL ;;
  let atime := match a with Some t => s64 t | None => mtime end in
  c <- kstrtoul (at_member header star_ctime) OCTAL ;;
  let ctime := match c with Some t => s64 t | None => mtime end in
  full_name <- build_name header ;;
  let '(full_name, basename) :=
    match strrchr full_name x2f with
    | Some i => (firstn (Z.to_nat i) full_name,
                 skipn (Z.to_nat (i + 1)) full_name)
    | None => ([], full_name)
    end in
  Ret (Some {| header := header;
               dirname := full_name;
               basename := basename;
               offset := u32 offset;
               data_offset := u32 (u64 (u64 (offset + u64 sizeof_star_header)
                                + ALIGN_SECTOR (u64 sizeof_star_header)));
               length := length;
               inode := 0;
               mode := u16 mode;
               uid := uid;
               gid := gid;
               atime := atime;
               mtime := mtime;
               ctime := ctime |}).

(** The loop of [tar_open]; the list is the chain of [next] pointers that
    starts at [parent]. *)
Fixpoint tar_open_loop (fuel : nat) (sb : super_block)
    (parent : option tar_entry) (count : Z) : outcome (list tar_entry) :=
  match parent with
  | None => Ret []
  | Some parent =>
    match fuel with
    | O => Spin
    | S fuel' =>
      let parent := set_inode parent count in
      let count := u64 (count + 1) in
      let len := s64 (u64 (data_offset parent + length parent)) in
      let offset := s64 (len + ALIGN_SECTOR len) in
      next <- tar_read_entry sb offset ;;
      rest <- tar_open_loop fuel' sb next count ;;
      Ret (parent :: rest)
    end
  end.

(** [tar_open]: the list headed by [first]; the empty list is [NULL]. *)
Definition tar_open (fuel : nat) (sb : super_block)
  : outcome (list tar_entry) :=
  first <- tar_read_entry sb 0 ;;
  tar_open_loop fuel sb first 2.

(** [tar_read]: the count returned and the bytes stored to [buffer]. *)
Definition tar_read (sb : super_block) (entry : tar_entry) (off len : Z)
  : outcome (Z * list byte) :=
  let to_read := min_t_size_t len (length entry - off) in
  tarfs_read to_read (u32 (data_offset entry + off)) sb.

(** [tar_find]: [entry] is the list that starts at the entry given. *)
Fixpoint tar_find (entry : list tar_entry) (dir base : list byte)
  : option tar_entry :=
  match entry with
  | [] => None
  | e :: next =>
    if (strcmp (basename e) base =? 0) && (strcmp (dirname e) dir =? 0)
    then Some e
    else tar_find next dir base
  end.

(** ** driver.c *)

Definition ROOT_INO : Z := 0.

Fixpoint tarfs_find_by_inode (entry : list tar_entry) (ino : Z)
  : option tar_entry :=
  match entry with
  | [] => None
  | e :: next =>
    if inode e =? ino then Some e else tarfs_find_by_inode next ino
  end.

(** [tarfs_fill_sb]: the code it returns and what [sb->s_fs_info] holds
    afterwards.  Whether the kernel's [new_inode] and [d_make_root] deliver
    an object is given by the two booleans. *)
Definition tarfs_fill_sb (fuel : nat) (sb : super_block)
    (new_inode_ok d_make_root_ok : bool) : outcome (Z * list tar_entry) :=
  entry <- tar_open fuel sb ;;
  match entry with
  | [] => Ret (- ENOMEM, [])
  | _ =>
    if negb new_inode_ok then Ret (- ENOMEM, entry)
    else if negb d_make_root_ok then Ret (- ENOMEM, entry)
    else Ret (0, entry)
  end.

End Tar.

(** ** driver.c, the operations on the mounted index

    [sb->s_fs_info] is the list [tar_open] returned.  The kernel's
    allocators are taken to succeed, except [new_inode], whose result the
    code tests. *)

Definition s32 (x : Z) : Z :=
  let y := u32 x in if y <? 2 ^ 31 then y else y - 2 ^ 32.

(** The C string at the start of [s]: the bytes before the first NUL. *)
Fixpoint c_str (s : list byte) : list byte :=
  match s with
  | [] => []
  | x :: s' => if Byte.eqb x x00 then [] else x :: c_str s'
  end.

(** [strlen(s)]. *)
Definition strlen (s : list byte) : Z := Z.of_nat (List.length (c_str s)).

Definition WRITE_MASK : Z := 146.  (* 0222 *)
Definition S_IFMT : Z := 61440.    (* 0170000 *)
Definition ENOENT : Z := 2.
Definition EBADF : Z := 9.
Definition DT_DIR : Z := 4.

(** The tables of operations an inode is given. *)
Inductive inode_operations : Type :=
| tarfs_dir_inode_operations
| tarfs_symlink_inode_operations
| tarfs_file_inode_operations.

(** The members of [struct inode] the driver fills in. *)
Record inode_t : Type := {
  i_ino : Z;
  i_mode : Z;
  i_uid : Z;
  i_gid : Z;
  i_size : Z;
  i_atime : Z;
  i_mtime : Z;
  i_ctime : Z;
  i_link : option (list byte);
  i_op : inode_operations
}.

(** What [dir_emit] hands to the actor of the caller. *)
Record dirent : Type := {
  d_name : list byte;
  d_namlen : Z;
  d_off : Z;
  d_ino : Z;
  d_type : Z
}.

(** [struct dir_context]: the position, and the records the actor has
    taken so far.  The actor is the caller's: given what it has taken, it
    takes the next record (it returns 0) or refuses it. *)
Record dir_context : Type := {
  pos : Z;
  taken : list dirent
}.

Definition actor_t : Type := list dirent -> dirent -> bool.

(** [dir_emit(ctx, name, namelen, ino, type)] (linux/fs.h). *)
Definition dir_emit (actor : actor_t) (ctx : dir_context)
    (name : list byte) (namelen ino type : Z) : bool * dir_context :=
  let d := {| d_name := firstn (Z.to_nat namelen) name; d_namlen := namelen;
              d_off := pos ctx; d_ino := ino; d_type := type |} in
  if actor (taken ctx) d
  then (true, {| pos := pos ctx; taken := taken ctx ++ [d] |})
  else (false, ctx).

(** [dir_emit_dots(file, ctx)] (linux/fs.h): [ino] is the directory's own
    number and [parent] is the number of its parent. *)
Definition dir_emit_dots (actor : actor_t) (ino parent : Z)
    (ctx : dir_context) : bool * dir_context :=
  let '(ok, ctx) :=
    if pos ctx =? 0 then
      let '(ok, ctx) :=
        dir_emit actor ctx (list_byte_of_string ".") 1 ino DT_DIR in
      if ok then (true, {| pos := 1; taken := taken ctx |}) else (false, ctx)
    else (true, ctx) in
  if ok then
    if pos ctx =? 1 then
      let '(ok, ctx) :=
        dir_emit actor ctx (list_byte_of_string "..") 2 parent DT_DIR in
      if ok then (true, {| pos := 2; taken := taken ctx |}) else (false, ctx)
    else (true, ctx)
  else (false, ctx).

Section Driver.
Context {H : gnutar_h}.

Definition tarfs_entry_mode (entry : tar_entry) : Z :=
  let mode := u32 (Z.land (mode entry) (Z.lnot WRITE_MASK)) in
  u32 (Z.lor mode (tar_type_to_posix (typeflag (header entry)))).

(** [tarfs_full_name]: the string in the buffer it returns. *)
Definition tarfs_full_name (entry : tar_entry) : list byte :=
  let dirlen := strlen (dirname entry) in
  let baselen := strlen (basename entry) in
  let len := u64 (u64 (dirlen + baselen) + 2) in
  if dirlen <? 1
  then firstn (Z.to_nat baselen) (c_str (basename entry))
  else firstn (Z.to_nat (len - 1))
         (c_str (dirname entry) ++ [x2f] ++ c_str (basename entry)).

(** [tarfs_build_inode]: [None] when [new_inode] delivers nothing. *)
Definition tarfs_build_inode (new_inode_ok : bool) (entry : tar_entry)
  : option inode_t :=
  let mode := tarfs_entry_mode entry in
  if negb new_inode_ok then None else
  let flag := typeflag (header entry) in
  Some {| i_ino := inode entry;
          i_mode := u16 mode;
          i_uid := uid entry;
          i_gid := gid entry;
          i_size := s64 (length entry);
          i_atime := atime entry;
          i_mtime := mtime entry;
          i_ctime := ctime entry;
          i_link := if Byte.eqb flag DIRTYPE then None
                    else if Byte.eqb flag SYMTYPE
                    then Some (c_str (at_member (header entry) star_linkname))
                    else None;
          i_op := if Byte.eqb flag DIRTYPE then tarfs_dir_inode_operations
                  else if Byte.eqb flag SYMTYPE
                  then tarfs_symlink_inode_operations
                  else tarfs_file_inode_operations |}.

(** [build_lookup_path]: [None] for [NULL], the directory nobody knows. *)
Definition build_lookup_path (dir_ino : Z) (entry : list tar_entry)
  : option (list byte) :=
  if dir_ino =? ROOT_INO then Some []
  else match tarfs_find_by_inode entry dir_ino with
       | None => None
       | Some e => Some (tarfs_full_name e)
       end.

(** [tar_find(entry, NULL, basename)]: the first entry with the name makes
    [strcmp] read its second argument. *)
Fixpoint tar_find_null (entry : list tar_entry) (base : list byte)
  : outcome (option tar_entry) :=
  match entry with
  | [] => Ret None
  | e :: next =>
    if strcmp (basename e) base =? 0 then Fault
    else tar_find_null next base
  end.

(** [tarfs_lookup]: the inode spliced to the dentry, [None] for none.
    [entry] is [dir->i_sb->s_fs_info], [dir_ino] is [dir->i_ino] and [name]
    is [dentry->d_name.name]. *)
Definition tarfs_lookup (new_inode_ok : bool) (entry : list tar_entry)
    (dir_ino : Z) (name : list byte) : outcome (option inode_t) :=
  found_entry <-
    match build_lookup_path dir_ino entry with
    | Some dir_path => Ret (tar_find entry dir_path name)
    | None => tar_find_null entry name
    end ;;
  match found_entry with
  | Some e => Ret (tarfs_build_inode new_inode_ok e)
  | None => Ret None
  end.

(** The loop of [tarfs_readdir]. *)
Fixpoint tarfs_readdir_loop (actor : actor_t) (dir_path : option (list byte))
    (entry : list tar_entry) (ctx : dir_context) : outcome dir_context :=
  match entry with
  | [] => Ret ctx
  | e :: next =>
    match dir_path with
    | None => Fault
    | Some p =>
      if strcmp p (dirname e) =? 0 then
        let ctx := {| pos := s64 (pos ctx + 1); taken := taken ctx |} in
        let namelen := s32 (strlen (basename e)) in
        let '(ok, ctx) :=
          dir_emit actor ctx (basename e) namelen (inode e)
                   (Z.shiftr (mode e) 12) in
        if ok : bool then tarfs_readdir_loop actor dir_path next ctx
        else Ret ctx
      else tarfs_readdir_loop actor dir_path next ctx
    end
  end.

(** [tarfs_readdir]: the code it returns and the context afterwards.
    [ino] is the number of the directory read and [parent] the number of
    its parent. *)
Definition tarfs_readdir (actor : actor_t) (entry : list tar_entry)
    (ino parent : Z) (ctx : dir_context) : outcome (Z * dir_context) :=
  let dir_path := build_lookup_path ino entry in
  if pos ctx >? 0 then Ret (0, ctx) else
  let '(ok, ctx) := dir_emit_dots actor ino parent ctx in
  if negb ok then Ret (0, ctx) else
  ctx <- tarfs_readdir_loop actor dir_path entry ctx ;;
  Ret (0, ctx).

(** [tarfs_file_read]: the value it returns, [*pos] afterwards and the
    bytes that reached the user.  [root] is [sb->s_fs_info], [ino] the
    number of the file's inode and [not_copied] what [copy_to_user]
    returns. *)
Definition tarfs_file_read (sb : super_block) (root : list tar_entry)
    (ino count fpos not_copied : Z) : outcome (Z * Z * list byte) :=
  match root with
  | [] => Ret (- ENOENT, fpos, [])
  | _ =>
    match tarfs_find_by_inode root ino with
    | None => Ret (- ENOENT, fpos, [])
    | Some entry =>
      '(advanced, buffer) <- tar_read sb entry (u32 fpos) count ;;
      if not_copied >? advanced
      then Ret (- EBADF, fpos, [])
      else
        let advanced := u64 (advanced - not_copied) in
        Ret (s64 advanced, s64 (fpos + advanced),
             firstn (Z.to_nat advanced) buffer)
    end
  end.

End Driver.

(** ** Concrete archives

    A layout to run the code on, and a builder of archive images. *)

(** Modelled from the spec: [gnutar.h], which declares [struct star_header],
    [OLDGNU_MAGIC] and the type flags, is not among the sources.  The spec
    names the members of the classic tar header with its extended variant
    ([atime] and [ctime] behind [prefix]); these are the offsets, widths and
    values of that layout in GNU tar. *)
Definition gnu : gnutar_h := {|
  sizeof_star_header := 500;
  star_name := {| offsetof := 0; sizeof := 100 |};
  star_mode := {| offsetof := 100; sizeof := 8 |};
  star_uid := {| offsetof := 108; sizeof := 8 |};
  star_gid := {| offsetof := 116; sizeof := 8 |};
  star_size := {| offsetof := 124; sizeof := 12 |};
  star_mtime := {| offsetof := 136; sizeof := 12 |};
  star_typeflag := {| offsetof := 156; sizeof := 1 |};
  star_linkname := {| offsetof := 157; sizeof := 100 |};
  star_magic := {| offsetof := 257; sizeof := 6 |};
  star_prefix := {| offsetof := 345; sizeof := 131 |};
  star_atime := {| offsetof := 476; sizeof := 12 |};
  star_ctime := {| offsetof := 488; sizeof := 12 |};
  OLDGNU_MAGIC := list_byte_of_string "ustar  " ++ [x00];
  REGTYPE := x30;
  AREGTYPE := x00;
  DIRTYPE := x35;
  SYMTYPE := x32;
  CHRTYPE := x33;
  BLKTYPE := x34;
  FIFOTYPE := x36
|}.

(** [s] in a member of [w] bytes, filled up with NULs. *)
Definition in_width (w : nat) (s : string) : list byte :=
  firstn w (list_byte_of_string s ++ repeat x00 w).

(** A header block of 512 bytes: the 500 bytes of the structure in GNU
    tar's layout and the padding to the sector. *)
Definition header_block (name : string) (flag : byte) (size : string)
  : list byte :=
  in_width 100 name ++ in_width 8 "0000644" ++ in_width 8 "0001750"
  ++ in_width 8 "0001750" ++ in_width 12 size ++ in_width 12 "00000000000"
  ++ in_width 8 "" ++ [flag] ++ in_width 100 ""
  ++ in_width 6 "ustar " ++ in_width 2 " " ++ in_width 32 "" ++ in_width 32 ""
  ++ in_width 8 "" ++ in_width 8 "" ++ in_width 131 ""
  ++ in_width 12 "00000000000" ++ in_width 12 "00000000000"
  ++ repeat x00 12.

(** Payload [s], padded to whole sectors. *)
Definition data_blocks (s : string) : list byte :=
  let d := list_byte_of_string s in
  d ++ repeat x00 (Z.to_nat (ALIGN_SECTOR (Z.of_nat (List.length d)))).

(** The two zero sectors that end an archive. *)
Definition end_marker : list byte := repeat x00 1024.

(** A device of blocks of [B] bytes that holds [image]; a block beyond the
    image cannot be read. *)
Definition device (B : Z) (image : list byte) : super_block :=
  {| s_blocksize := B;
     sb_bread := fun block =>
       if (0 <=? block) && (block * B <? Z.of_nat (List.length image))
       then Some {| b_size := B; b_data := memcpy image (block * B) B |}
       else None |}.

(** The archive of the directory [a/] and the file [a/b.txt]. *)
Definition archive_a : list byte :=
  header_block "a/" x35 "00000000000"
  ++ header_block "a/b.txt" x30 "00000000005" ++ data_blocks "hello"
  ++ end_marker.

(** A device of more than 4 GiB: a first member whose payload ends at
    [2^32 - 1024], then the member [x] of 1024 bytes, whose payload
    lies on both sides of the 4 GiB mark. *)
Definition big_device : super_block :=
  {| s_blocksize := 512;
     sb_bread := fun block =>
       Some {| b_size := 512;
               b_data :=
                 if block =? 0
                 then header_block "big" x30 "37777775000"
                 else if block =? 8388606
                 then header_block "x" x30 "00000002000"
                 else if block =? 8388607 then repeat x41 512
                 else if block =? 8388608 then repeat x42 512
                 else repeat x00 512 |} |}.

(** A device whose block layer hands out blocks of 1024 bytes although
    the super block says 512. *)
Definition misfit_device : super_block :=
  {| s_blocksize := 512;
     sb_bread := fun _ => Some {| b_size := 1024;
                                  b_data := repeat x41 1024 |} |}.

(** An archive that holds the path [f] twice. *)
Definition archive_dup : list byte :=
  header_block "f" x30 "00000000001" ++ data_blocks "1"
  ++ header_block "f" x30 "00000000001" ++ data_blocks "2"
  ++ end_marker.



(** ** Notions the statements use *)

(** The byte at address [a] of the device, and [n] bytes from there. *)
Definition device_byte (sb : super_block) (a : Z) : byte :=
  match sb_bread sb (a / s_blocksize sb) with
  | Some bh => nth (Z.to_nat (a mod s_blocksize sb)) (b_data bh) x00
  | None => x00
  end.

Definition device_bytes (sb : super_block) (a n : Z) : list byte :=
  map (fun i => device_byte sb (a + Z.of_nat i)) (seq 0 (Z.to_nat n)).

(** Where [tar_open] looks for the header after [parent]. *)
Definition next_offset (parent : tar_entry) : Z :=
  let len := s64 (u64 (data_offset parent + length parent)) in
  s64 (len + ALIGN_SECTOR len).

(** Reads of consecutive chunks of the payload: each starts where the one
    before ended; the bytes of all of them in order. *)
Fixpoint read_chunks (sb : super_block) (entry : tar_entry) (off : Z)
    (chunks : list Z) : outcome (list byte) :=
  match chunks with
  | [] => Ret []
  | len :: chunks' =>
    '(_, data) <- tar_read sb entry off len ;;
    rest <- read_chunks sb entry (off + len) chunks' ;;
    Ret (data ++ rest)
  end.


(** [c] is one of the characters 0 to 7. *)
Definition is_octal_digit (c : byte) : bool :=
  (48 <=? Z_of_byte c) && (Z_of_byte c <=? 55).

(** What a listing shows of a record: the name and the inode number. *)
Definition shown (d : dirent) : list byte * Z := (d_name d, d_ino d).

(** [dir]/[base] is the path of [e], in the sense of [tar_find]. *)
Definition path_is (e : tar_entry) (dir base : list byte) : Prop :=
  strcmp (basename e) base = 0 /\ strcmp (dirname e) dir = 0.

Section Chain.
Context {H : gnutar_h}.

(** Reading the header at [off] and walking on from it. *)
Definition walk (fuel : nat) (sb : super_block) (off count : Z)
  : outcome (list tar_entry) :=
  next <- tar_read_entry sb off ;;
  tar_open_loop fuel sb next count.


End Chain.

(** ** Headers, byte by byte

    What the bytes of a header and of an archive have to be for the
    statements about [tar_open] that are made on the bytes. *)











Section Bytes.
Context {H : gnutar_h}.









End Bytes.





(** ** Proof steps *)

(** One step through a computation in [outcome] that is known to return. *)
Ltac step_in H :=
  match type of H with
  | bind ?m _ = Ret _ =>
    let E := fresh "E" in
    destruct m as [?| |] eqn:E; cbn [bind] in H; [|discriminate H..]
  | (let '(_, _) := ?p in _) = Ret _ => destruct p
  | (if ?b then _ else _) = Ret _ =>
    let E := fresh "E" in destruct b eqn:E
  | match ?o with Some _ => _ | None => _ end = Ret _ => destruct o
  end.

(** * Properties *)

(** ** Machine integers *)

Lemma u64_small (x : Z) : 0 <= x < 2 ^ 64 -> u64 x = x.
Proof. intros Hx. unfold u64. now apply Z.mod_small. Qed.

Lemma u32_small (x : Z) : 0 <= x < 2 ^ 32 -> u32 x = x.
Proof. intros Hx. unfold u32. now apply Z.mod_small. Qed.

Lemma u64_range (x : Z) : 0 <= u64 x < 2 ^ 64.
Proof. unfold u64. apply Z.mod_pos_bound. lia. Qed.

Lemma u32_range (x : Z) : 0 <= u32 x < 2 ^ 32.
Proof. unfold u32. apply Z.mod_pos_bound. lia. Qed.

Lemma s64_small (x : Z) : 0 <= x < 2 ^ 63 -> s64 x = x.
Proof.
  intros Hx. unfold s64. rewrite u64_small by lia.
  destruct (x <? 2 ^ 63) eqn:E; [reflexivity | apply Z.ltb_ge in E; lia].
Qed.

(** Subtracting the signed copy of [v] gives the same 64 bits as
    subtracting [v]. *)
Lemma u64_sub_s64 (b v : Z) :
  0 <= v < b -> b < 2 ^ 64 -> u64 (b - s64 v) = b - v.
Proof.
  intros Hv Hb. unfold s64. rewrite (u64_small v) by lia.
  destruct (v <? 2 ^ 63) eqn:E.
  - apply u64_small. lia.
  - unfold u64. replace (b - (v - 2 ^ 64)) with (b - v + 1 * 2 ^ 64) by lia.
    rewrite Z.mod_add by lia. apply Z.mod_small. lia.
Qed.

Lemma min_t_size_t_bounds (a size : Z) :
  0 <= size < 2 ^ 64 -> 0 <= min_t_size_t a size <= size.
Proof.
  intros Hs. unfold min_t_size_t. rewrite (u64_small size) by lia.
  pose proof (u64_range a). lia.
Qed.

(** ** The block reader *)

Lemma tarfs_read_loop_eq fuel sb buffer size offset pos :
  tarfs_read_loop fuel sb buffer size offset pos =
  if size >? 0 then
    match fuel with
    | O => Spin
    | S fuel' =>
      if s_blocksize sb =? 0 then Fault else
      let block := u32 (u64 (offset + pos) / s_blocksize sb) in
      let inner_off := s64 (u64 (offset + pos) mod s_blocksize sb) in
      let inner_size := min_t_size_t (s_blocksize sb - inner_off) size in
      match sb_bread sb block with
      | None => Fault
      | Some bh =>
        tarfs_read_loop fuel' sb
          (buffer ++ memcpy (b_data bh) inner_off inner_size)
          (u64 (size - inner_size)) offset (u64 (pos + inner_size))
      end
    end
  else Ret (pos, buffer).
Proof. destruct fuel; reflexivity. Qed.

(** Whatever the blocks are, a count that is returned is the size asked. *)
Lemma tarfs_read_loop_count fuel :
  forall sb buffer size offset pos n buf,
    0 <= size -> 0 <= pos -> pos + size < 2 ^ 64 ->
    tarfs_read_loop fuel sb buffer size offset pos = Ret (n, buf) ->
    n = pos + size.
Proof.
  induction fuel as [|fuel IH]; intros sb buffer size offset pos n buf Hs Hp Hb;
    rewrite tarfs_read_loop_eq; rewrite Z.gtb_ltb;
    destruct (0 <? size) eqn:Es;
    try (intros [= <- _]; apply Z.ltb_ge in Es; lia);
    try discriminate.
  apply Z.ltb_lt in Es.
  destruct (s_blocksize sb =? 0); [discriminate|]. cbv zeta.
  destruct (sb_bread sb _) as [bh|]; [|discriminate].
  set (k := min_t_size_t _ size).
  assert (Hk : 0 <= k <= size) by (apply min_t_size_t_bounds; lia).
  rewrite (u64_small (size - k)), (u64_small (pos + k)) by lia.
  intros Hr. apply IH in Hr; lia.
Qed.

(** The chunk of one round is at least one byte. *)
Lemma inner_size_pos (B x size : Z) :
  0 < B < 2 ^ 64 -> 0 < size < 2 ^ 64 ->
  0 < min_t_size_t (B - s64 (x mod B)) size <= size.
Proof.
  intros HB Hs. unfold min_t_size_t.
  pose proof (Z.mod_pos_bound x B ltac:(lia)) as Hm.
  rewrite u64_sub_s64, (u64_small size) by lia. lia.
Qed.

(** With every block present the loop ends within [size] rounds. *)
Lemma tarfs_read_loop_total fuel :
  forall sb buffer size offset pos,
    0 < s_blocksize sb < 2 ^ 64 ->
    (forall block, sb_bread sb block <> None) ->
    0 <= size -> 0 <= pos -> pos + size < 2 ^ 64 ->
    (Z.to_nat size <= fuel)%nat ->
    exists buf,
      tarfs_read_loop fuel sb buffer size offset pos = Ret (pos + size, buf).
Proof.
  induction fuel as [|fuel IH]; intros sb buffer size offset pos HB Hall Hs Hp Hb Hf;
    rewrite tarfs_read_loop_eq; rewrite Z.gtb_ltb;
    destruct (0 <? size) eqn:Es;
    try (apply Z.ltb_ge in Es; exists buffer; do 2 f_equal; lia).
  - apply Z.ltb_lt in Es. lia.
  - apply Z.ltb_lt in Es.
    destruct (s_blocksize sb =? 0) eqn:E0; [apply Z.eqb_eq in E0; lia|].
    cbv zeta. destruct (sb_bread sb _) as [bh|] eqn:Eb;
      [|now apply Hall in Eb].
    pose proof (inner_size_pos (s_blocksize sb) (u64 (offset + pos)) size
                  HB ltac:(lia)) as Hk.
    set (k := min_t_size_t _ size) in *.
    rewrite (u64_small (size - k)), (u64_small (pos + k)) by lia.
    destruct (IH sb (buffer ++ memcpy (b_data bh)
                       (s64 (u64 (offset + pos) mod s_blocksize sb)) k)
                 (size - k) offset (pos + k)) as [buf Hbuf]; try lia; try assumption.
    exists buf. rewrite Hbuf. do 2 f_equal. lia.
Qed.

(** A block size that fits [unsigned long] never lets the loop run out of
    the [size] rounds it is given. *)
Lemma tarfs_read_loop_ends fuel :
  forall sb buffer size offset pos,
    0 <= s_blocksize sb < 2 ^ 64 ->
    0 <= size < 2 ^ 64 ->
    (Z.to_nat size <= fuel)%nat ->
    tarfs_read_loop fuel sb buffer size offset pos <> Spin.
Proof.
  induction fuel as [|fuel IH]; intros sb buffer size offset pos HB Hs Hf;
    rewrite tarfs_read_loop_eq, Z.gtb_ltb;
    destruct (0 <? size) eqn:Es; try discriminate.
  - apply Z.ltb_lt in Es. lia.
  - apply Z.ltb_lt in Es.
    destruct (s_blocksize sb =? 0) eqn:E0; [discriminate|].
    apply Z.eqb_neq in E0. cbv zeta.
    destruct (sb_bread sb _) as [bh|]; [|discriminate].
    pose proof (inner_size_pos (s_blocksize sb) (u64 (offset + pos)) size
                  ltac:(lia) ltac:(lia)) as Hk.
    set (k := min_t_size_t _ size) in *.
    rewrite (u64_small (size - k)) by lia.
    apply IH; lia.
Qed.

(** C10.  For every call of [tarfs_read] with requested size [S] the count
    that comes back is [S]: whatever the blocks were, a returned count is
    the size asked for, the call always ends, and it does return (with [S])
    as soon as every block fetch hands out a block at all, of whatever
    size. *)
Theorem tarfs_read_count_is_size (sb : super_block) (size offset : Z) :
  0 <= size < 2 ^ 64 ->
  0 <= s_blocksize sb < 2 ^ 64 ->
  (forall n buf, tarfs_read size offset sb = Ret (n, buf) -> n = size) /\
  tarfs_read size offset sb <> Spin /\
  ((forall block, sb_bread sb block <> None) -> 0 < s_blocksize sb ->
   exists buf, tarfs_read size offset sb = Ret (size, buf)).
Proof.
  intros Hs HB. unfold tarfs_read. repeat split.
  - intros n buf Hr. apply tarfs_read_loop_count in Hr; lia.
  - apply tarfs_read_loop_ends; lia.
  - intros Hall HB0.
    destruct (tarfs_read_loop_total (Z.to_nat size) sb [] size offset 0)
      as [buf Hbuf]; try lia; try assumption.
    exists buf. exact Hbuf.
Qed.

Lemma tarfs_read_count_is_size_witness :
  exists buf, tarfs_read 4 0 misfit_device = Ret (4, buf).
Proof.
  destruct (tarfs_read_count_is_size misfit_device 4 0) as (_ & _ & Hret).
  - lia.
  - simpl. lia.
  - apply Hret.
    + intros block. simpl. discriminate.
    + simpl. lia.
Defined.

(** C6.  [tarfs_read] at the inputs where the claim expects an error.  A
    block of the wrong size is copied from and the full count comes back; a
    block that cannot be fetched is dereferenced as [NULL], so the call
    hands no error to its caller either. *)
Theorem tarfs_read_reports_no_error :
  (exists bh, sb_bread misfit_device 0 = Some bh
              /\ b_size bh <> s_blocksize misfit_device)
  /\ tarfs_read 4 0 misfit_device = Ret (4, [x41; x41; x41; x41])
  /\ sb_bread (device 512 []) 0 = None
  /\ tarfs_read 4 0 (device 512 []) = Fault.
Proof.
  split; [|repeat split; reflexivity].
  eexists. split; [reflexivity|]. simpl. lia.
Qed.

(** ** The bytes the block reader delivers *)

Lemma map_seq_from {A : Type} (f : nat -> A) (n : nat) :
  forall s, map f (seq s n) = map (fun i => f (s + i)%nat) (seq 0 n).
Proof.
  revert f. induction n as [|n IH]; intros f s; [reflexivity|].
  simpl. rewrite Nat.add_0_r. f_equal.
  rewrite (IH f (S s)), (IH (fun i => f (s + i)%nat) 1%nat).
  apply map_ext. intros i. f_equal. lia.
Qed.

Lemma device_bytes_app (sb : super_block) (a k m : Z) :
  0 <= k -> 0 <= m ->
  device_bytes sb a (k + m) = device_bytes sb a k ++ device_bytes sb (a + k) m.
Proof.
  intros Hk Hm. unfold device_bytes.
  rewrite Z2Nat.inj_add, seq_app, map_app by lia. f_equal.
  rewrite map_seq_from. apply map_ext. intros i. f_equal. lia.
Qed.

(** Inside one block [memcpy] takes the bytes of the device. *)
Lemma memcpy_device_bytes (sb : super_block) (bh : buffer_head) (a k : Z) :
  0 < s_blocksize sb -> 0 <= a ->
  sb_bread sb (a / s_blocksize sb) = Some bh ->
  k <= s_blocksize sb - a mod s_blocksize sb ->
  memcpy (b_data bh) (a mod s_blocksize sb) k = device_bytes sb a k.
Proof.
  intros HB Ha Hbh Hk. unfold memcpy, device_bytes.
  apply map_ext_in. intros i Hi. apply in_seq in Hi.
  set (B := s_blocksize sb) in *.
  pose proof (Z.mod_pos_bound a B HB) as Hm.
  pose proof (Z.div_mod a B ltac:(lia)) as Hdm.
  assert (Hq : (a + Z.of_nat i) / B = a / B).
  { symmetry. apply (Z.div_unique_pos _ _ _ (a mod B + Z.of_nat i)); lia. }
  assert (Hr : (a + Z.of_nat i) mod B = a mod B + Z.of_nat i).
  { symmetry. apply (Z.mod_unique_pos _ _ (a / B)); lia. }
  unfold device_byte. fold B. rewrite Hq, Hr, Hbh. reflexivity.
Qed.

(** Below 4 GiB [tarfs_read] delivers the bytes of the device from
    [offset] on, wherever the block boundaries are. *)
Lemma tarfs_read_loop_bytes fuel :
  forall sb buffer size offset pos,
    0 < s_blocksize sb < 2 ^ 63 ->
    (forall block, sb_bread sb block <> None) ->
    0 <= size -> 0 <= pos -> 0 <= offset ->
    offset + pos + size <= 2 ^ 32 ->
    (Z.to_nat size <= fuel)%nat ->
    tarfs_read_loop fuel sb buffer size offset pos =
    Ret (pos + size, buffer ++ device_bytes sb (offset + pos) size).
Proof.
  induction fuel as [|fuel IH];
    intros sb buffer size offset pos HB Hall Hs Hp Ho Hb Hf;
    rewrite tarfs_read_loop_eq, Z.gtb_ltb;
    destruct (0 <? size) eqn:Es;
    try (apply Z.ltb_ge in Es; assert (size = 0) as -> by lia;
         unfold device_bytes; simpl; rewrite app_nil_r, Z.add_0_r;
         reflexivity).
  - apply Z.ltb_lt in Es. lia.
  - apply Z.ltb_lt in Es.
    destruct (s_blocksize sb =? 0) eqn:E0; [apply Z.eqb_eq in E0; lia|].
    cbv zeta. set (B := s_blocksize sb) in *.
    rewrite (u64_small (offset + pos)) by lia.
    set (a := offset + pos) in *.
    pose proof (Z.mod_pos_bound a B ltac:(lia)) as Hm.
    assert (Hq : 0 <= a / B <= a).
    { split; [apply Z.div_pos; lia|].
      apply Z.div_le_upper_bound; nia. }
    rewrite (u32_small (a / B)) by lia.
    rewrite (s64_small (a mod B)) by lia.
    destruct (sb_bread sb (a / B)) as [bh|] eqn:Eb; [|now apply Hall in Eb].
    assert (Hk : min_t_size_t (B - a mod B) size = Z.min (B - a mod B) size).
    { unfold min_t_size_t. rewrite !u64_small by lia. reflexivity. }
    rewrite Hk. set (k := Z.min (B - a mod B) size) in *.
    rewrite (u64_small (size - k)), (u64_small (pos + k)) by lia.
    rewrite IH by (try assumption; lia).
    subst B.
    rewrite (memcpy_device_bytes sb bh a k) by (try assumption; lia).
    assert (Hsplit : device_bytes sb a size =
                     device_bytes sb a k ++ device_bytes sb (a + k) (size - k)).
    { rewrite <- device_bytes_app by lia. f_equal. lia. }
    rewrite Hsplit, <- app_assoc.
    subst a. rewrite (Z.add_assoc offset pos k).
    f_equal. f_equal. lia.
Qed.

Lemma tarfs_read_bytes (sb : super_block) (size offset : Z) :
  0 < s_blocksize sb < 2 ^ 63 ->
  (forall block, sb_bread sb block <> None) ->
  0 <= size -> 0 <= offset -> offset + size <= 2 ^ 32 ->
  tarfs_read size offset sb = Ret (size, device_bytes sb offset size).
Proof.
  intros HB Hall Hs Ho Hb. unfold tarfs_read.
  rewrite tarfs_read_loop_bytes by (try assumption; lia).
  rewrite Z.add_0_r. reflexivity.
Qed.

(** ** The payload reader *)

(** At the end of the payload [tar_read] reads nothing and returns 0. *)
Lemma tar_read_at_length (sb : super_block) (entry : tar_entry) (len : Z) :
  tar_read sb entry (length entry) len = Ret (0, []).
Proof.
  unfold tar_read, min_t_size_t. rewrite Z.sub_diag.
  pose proof (u64_range len) as Hl.
  change (u64 0) with 0. rewrite Z.min_r by lia. reflexivity.
Qed.

(** Inside the payload, and with the payload below 4 GiB, [tar_read]
    delivers the bytes of the device, cut at the end of the payload. *)
Lemma tar_read_bytes (sb : super_block) (entry : tar_entry) (off len : Z) :
  0 < s_blocksize sb < 2 ^ 63 ->
  (forall block, sb_bread sb block <> None) ->
  0 <= data_offset entry ->
  data_offset entry + length entry <= 2 ^ 32 ->
  0 <= off <= length entry ->
  0 <= len < 2 ^ 64 ->
  tar_read sb entry off len =
  Ret (Z.min len (length entry - off),
       device_bytes sb (data_offset entry + off)
                    (Z.min len (length entry - off))).
Proof.
  intros HB Hall Hd Hend Hoff Hlen. unfold tar_read, min_t_size_t.
  rewrite (u64_small len), (u64_small (length entry - off)) by lia.
  destruct (Z.eq_dec (Z.min len (length entry - off)) 0) as [E|E].
  - rewrite E. reflexivity.
  - rewrite (u32_small (data_offset entry + off)) by lia.
    apply tarfs_read_bytes; try assumption; lia.
Qed.

(** Chunks that tile a stretch of the payload deliver the bytes of that
    stretch, whatever their sizes. *)
Lemma read_chunks_bytes (sb : super_block) (entry : tar_entry) :
  0 < s_blocksize sb < 2 ^ 63 ->
  (forall block, sb_bread sb block <> None) ->
  0 <= data_offset entry ->
  data_offset entry + length entry <= 2 ^ 32 ->
  forall chunks off,
    Forall (fun len => 0 <= len) chunks ->
    0 <= off ->
    off + fold_right Z.add 0 chunks <= length entry ->
    read_chunks sb entry off chunks =
    Ret (device_bytes sb (data_offset entry + off)
                      (fold_right Z.add 0 chunks)).
Proof.
  intros HB Hall Hd Hend chunks.
  induction chunks as [|len chunks IH]; intros off Hpos Hoff Hsum.
  - reflexivity.
  - inversion Hpos as [|? ? Hlen Hrest]; subst. simpl in Hsum |- *.
    assert (Hs : 0 <= fold_right Z.add 0 chunks).
    { clear -Hrest. induction Hrest; simpl; lia. }
    rewrite tar_read_bytes by (try assumption; lia).
    rewrite Z.min_l by lia. simpl.
    rewrite IH by (try assumption; lia). simpl.
    rewrite device_bytes_app by lia.
    rewrite Z.add_assoc. reflexivity.
Qed.

(** For a payload below 4 GiB on a device whose blocks can all be read, the
    reads of any tiling of [0, L) put together are the bytes of the one read
    of [L] bytes from 0. *)
Lemma tar_read_chunks_below_4G (sb : super_block) (entry : tar_entry)
    (chunks : list Z) :
  0 < s_blocksize sb < 2 ^ 63 ->
  (forall block, sb_bread sb block <> None) ->
  0 <= data_offset entry -> 0 <= length entry ->
  data_offset entry + length entry <= 2 ^ 32 ->
  Forall (fun len => 0 <= len) chunks ->
  fold_right Z.add 0 chunks = length entry ->
  exists data,
    tar_read sb entry 0 (length entry) = Ret (length entry, data)
    /\ read_chunks sb entry 0 chunks = Ret data.
Proof.
  intros HB Hall Hd Hl Hend Hpos Hsum.
  exists (device_bytes sb (data_offset entry) (length entry)). split.
  - rewrite tar_read_bytes by (try assumption; lia).
    rewrite Z.sub_0_r, Z.min_id, Z.add_0_r. reflexivity.
  - rewrite (read_chunks_bytes sb entry HB Hall Hd Hend chunks 0)
      by (try assumption; lia).
    rewrite Hsum, Z.add_0_r. reflexivity.
Qed.

(** Behind the end of the payload the difference [length - off] wraps
    around and nothing is cut off: the call returns [len]. *)
Lemma tar_read_behind_length (sb : super_block) (entry : tar_entry)
    (off len : Z) :
  0 < s_blocksize sb < 2 ^ 64 ->
  (forall block, sb_bread sb block <> None) ->
  0 <= length entry < off -> off < 2 ^ 32 -> 0 <= len < 2 ^ 32 ->
  exists buf, tar_read sb entry off len = Ret (len, buf).
Proof.
  intros HB Hall Hl Hoff Hlen. unfold tar_read, min_t_size_t.
  rewrite (u64_small len) by lia.
  assert (Hw : u64 (length entry - off) = length entry - off + 2 ^ 64).
  { unfold u64. symmetry. apply (Z.mod_unique _ _ (-1)); lia. }
  rewrite Hw, Z.min_l by lia. unfold tarfs_read.
  destruct (tarfs_read_loop_total (Z.to_nat len) sb [] len
              (u32 (data_offset entry + off)) 0) as [buf Hbuf];
    try lia; try assumption.
  exists buf. exact Hbuf.
Qed.

(** C1.  [tar_read] one byte behind the end of a payload of 5 bytes, with
    room for 4 bytes: the difference [length - off] wraps around, nothing
    is cut off, and 4 bytes from behind the payload come back. *)
Theorem tar_read_past_length :
  exists a b,
    tar_open (H := gnu) 10 (device 512 archive_a) = Ret [a; b]
    /\ length b = 5
    /\ tar_read (device 512 archive_a) b 6 4 = Ret (4, [x00; x00; x00; x00]).
Proof.
  do 2 eexists. split; [vm_compute; reflexivity|].
  split; vm_compute; reflexivity.
Qed.

(** C7.  The member [x] of [big_device] has its 1024 bytes on both sides
    of the 4 GiB mark.  One read of 1024 bytes delivers them; the second of
    two reads of 512 bytes starts at [data_offset + 512], which wraps around
    in 32 bits to 0, and delivers the first block of the device. *)
Theorem tar_read_chunks_differ_at_4G :
  exists a x,
    tar_open (H := gnu) 10 big_device = Ret [a; x]
    /\ length x = 1024
    /\ tar_read big_device x 0 1024
       = Ret (1024, repeat x41 512 ++ repeat x42 512)
    /\ read_chunks big_device x 0 [512; 512]
       = Ret (repeat x41 512 ++ header_block "big" x30 "37777775000")
    /\ repeat x41 512 ++ repeat x42 512
       <> repeat x41 512 ++ header_block "big" x30 "37777775000".
Proof.
  do 2 eexists. split; [vm_compute; reflexivity|].
  repeat split; try (vm_compute; reflexivity).
  intros E. apply (f_equal (fun l => nth 512 l x00)) in E.
  vm_compute in E. discriminate.
Qed.

(** ** Decoding one header *)

Lemma kstrtouint_range (s : list byte) (base v : Z) :
  kstrtouint s base = Ret (Some v) -> 0 <= v < 2 ^ 32.
Proof.
  unfold kstrtouint. intros Hk. step_in Hk. step_in Hk; [|discriminate].
  step_in Hk; [discriminate|]. injection Hk as <-.
  apply negb_false_iff, Z.eqb_eq in E0. rewrite E0. apply u32_range.
Qed.

Lemma ALIGN_SECTOR_range (x : Z) : 0 <= ALIGN_SECTOR x < 512.
Proof.
  unfold ALIGN_SECTOR. destruct (Z.rem x 512 >? 0) eqn:E; [|lia].
  apply Z.gtb_lt in E.
  destruct (Z.le_gt_cases 0 x) as [Hx|Hx].
  - pose proof (Z.rem_bound_pos x 512 Hx ltac:(lia)). lia.
  - pose proof (Z.rem_nonpos x 512 ltac:(lia) ltac:(lia)). lia.
Qed.

(** A string that starts with neither a sign nor an octal digit is
    refused by [kstrtouint] in base 8. *)
Lemma kstrtouint_refuses_garbage (c : byte) (s : list byte) :
  Byte.eqb c x2b = false -> is_octal_digit c = false ->
  kstrtouint (c :: s) OCTAL = Ret None.
Proof.
  intros Hplus Hoct. unfold kstrtouint, kstrtoull. rewrite Hplus.
  cbn [_parse_integer].
  destruct (Z_of_byte c =? 0); [reflexivity|].
  unfold digit_val, is_octal_digit, OCTAL in *.
  destruct ((48 <=? Z_of_byte c) && (Z_of_byte c <=? 57)) eqn:Ed.
  - apply andb_true_iff in Ed as [E1 E2]. apply Z.leb_le in E1, E2.
    rewrite (proj2 (Z.leb_le _ _) E1) in Hoct. simpl in Hoct.
    apply Z.leb_gt in Hoct.
    destruct (Z_of_byte c - 48 >=? 8) eqn:E8; [reflexivity|].
    rewrite Z.geb_leb in E8. apply Z.leb_gt in E8. lia.
  - destruct ((97 <=? _tolower (Z_of_byte c))
              && (_tolower (Z_of_byte c) <=? 102)) eqn:El; [|reflexivity].
    apply andb_true_iff in El as [E1 E2]. apply Z.leb_le in E1, E2.
    destruct (_tolower (Z_of_byte c) - 97 + 10 >=? 8) eqn:E8; [reflexivity|].
    rewrite Z.geb_leb in E8. apply Z.leb_gt in E8. lia.
Qed.

Section Index.
Context {H : gnutar_h}.

(** What every decoded entry has: offsets and a length of 32 bits, and no
    inode number yet. *)
Lemma tar_read_entry_some (sb : super_block) (off : Z) (e : tar_entry) :
  tar_read_entry sb off = Ret (Some e) ->
  0 <= data_offset e < 2 ^ 32 /\ 0 <= length e < 2 ^ 32 /\ inode e = 0.
Proof.
  unfold tar_read_entry. intros Hr.
  step_in Hr. step_in Hr. step_in Hr; [discriminate|].
  step_in Hr; [discriminate|].
  step_in Hr. step_in Hr; [|discriminate].
  step_in Hr. step_in Hr; [|discriminate].
  step_in Hr. step_in Hr; [|discriminate].
  step_in Hr. step_in Hr; [|discriminate].
  do 4 step_in Hr.
  destruct (match strrchr _ _ with Some _ => _ | None => _ end) as [d b].
  injection Hr as <-. cbn [data_offset length inode].
  split; [apply u32_range|]. split; [|reflexivity].
  eapply kstrtouint_range; eassumption.
Qed.

(** The next header is looked for below [2^33 + 512]. *)
Lemma next_offset_range (e : tar_entry) :
  0 <= data_offset e < 2 ^ 32 -> 0 <= length e < 2 ^ 32 ->
  0 <= next_offset e < 2 ^ 33 + 512.
Proof.
  intros Hd Hl. unfold next_offset.
  rewrite (u64_small (data_offset e + length e)) by lia.
  rewrite (s64_small (data_offset e + length e)) by lia.
  pose proof (ALIGN_SECTOR_range (data_offset e + length e)) as Ha.
  rewrite s64_small by lia. lia.
Qed.

Lemma next_offset_set_inode (e : tar_entry) (count : Z) :
  next_offset (set_inode e count) = next_offset e.
Proof. reflexivity. Qed.

(** ** The walk of [tar_open] *)

Lemma tar_open_walk (fuel : nat) (sb : super_block) :
  tar_open fuel sb = walk fuel sb 0 2.
Proof. reflexivity. Qed.

Lemma tar_open_loop_some (fuel : nat) (sb : super_block) (p : tar_entry)
    (count : Z) :
  tar_open_loop (S fuel) sb (Some p) count =
  (rest <- walk fuel sb (next_offset p) (u64 (count + 1)) ;;
   Ret (set_inode p count :: rest)).
Proof.
  cbn [tar_open_loop]. unfold walk.
  change (s64 (s64 (u64 (data_offset (set_inode p count)
                         + length (set_inode p count)))
               + ALIGN_SECTOR (s64 (u64 (data_offset (set_inode p count)
                                         + length (set_inode p count))))))
    with (next_offset p).
  destruct (tar_read_entry sb (next_offset p)) as [next| |]; reflexivity.
Qed.

(** A walk that returns a non-empty list has read its head at [off] and
    walked on from the offset after it. *)
Lemma walk_cons (fuel : nat) (sb : super_block) (off count : Z)
    (q : tar_entry) (rest : list tar_entry) :
  walk fuel sb off count = Ret (q :: rest) ->
  exists p fuel',
    tar_read_entry sb off = Ret (Some p)
    /\ fuel = S fuel'
    /\ q = set_inode p count
    /\ walk fuel' sb (next_offset p) (u64 (count + 1)) = Ret rest.
Proof.
  unfold walk at 1. intros Hw. step_in Hw.
  destruct a as [p|]; [|destruct fuel; discriminate].
  destruct fuel as [|fuel']; [discriminate|].
  rewrite tar_open_loop_some in Hw. step_in Hw.
  injection Hw as <- <-. exists p, fuel'. auto.
Qed.

Lemma walk_nil (fuel : nat) (sb : super_block) (off count : Z) :
  walk fuel sb off count = Ret [] -> tar_read_entry sb off = Ret None.
Proof.
  unfold walk. intros Hw. step_in Hw.
  destruct a as [p|]; [|reflexivity].
  destruct fuel as [|fuel']; [discriminate|].
  rewrite tar_open_loop_some in Hw. step_in Hw. discriminate.
Qed.

(** How many entries a walk from [off] returns depends on [off] alone. *)
Lemma walk_length (sb : super_block) (es : list tar_entry) :
  forall es' fuel fuel' off count count',
    walk fuel sb off count = Ret es ->
    walk fuel' sb off count' = Ret es' ->
    List.length es = List.length es'.
Proof.
  induction es as [|q es IH]; intros es' fuel fuel' off count count' Hw Hw'.
  - apply walk_nil in Hw. destruct es' as [|q' es']; [reflexivity|].
    apply walk_cons in Hw' as (p & _ & Hp & _). congruence.
  - apply walk_cons in Hw as (p & f & Hp & -> & -> & Hw).
    destruct es' as [|q' es'].
    + apply walk_nil in Hw'. congruence.
    + apply walk_cons in Hw' as (p' & f' & Hp' & -> & -> & Hw').
      assert (p' = p) as -> by congruence.
      simpl. f_equal. eapply IH; eassumption.
Qed.

(** What follows an entry in the result is itself a walk, from the offset
    after that entry. *)
Lemma walk_suffix (sb : super_block) (l1 : list tar_entry) :
  forall fuel off count q l2,
    walk fuel sb off count = Ret (l1 ++ q :: l2) ->
    exists fuel2 count2, walk fuel2 sb (next_offset q) count2 = Ret l2.
Proof.
  induction l1 as [|a l1 IH]; intros fuel off count q l2 Hw; simpl in Hw;
    apply walk_cons in Hw as (p & f & Hp & -> & -> & Hw).
  - rewrite next_offset_set_inode. eauto.
  - eapply IH; eassumption.
Qed.

(** No offset is visited twice: the walk would go round for ever. *)
Lemma walk_offsets_NoDup (sb : super_block) (es : list tar_entry) :
  forall fuel off count,
    walk fuel sb off count = Ret es -> NoDup (map next_offset es).
Proof.
  induction es as [|q es IH]; intros fuel off count Hw; simpl.
  - constructor.
  - apply walk_cons in Hw as (p & f & Hp & -> & -> & Hw).
    constructor; [|eapply IH; eassumption].
    intros Hin. apply in_map_iff in Hin as (q' & Hq' & Hin).
    apply in_split in Hin as (l1 & l2 & ->).
    pose proof (walk_suffix sb l1 _ _ _ _ _ Hw) as (f2 & c2 & Hw2).
    rewrite Hq', next_offset_set_inode in Hw2.
    pose proof (walk_length sb _ _ _ _ _ _ _ Hw Hw2) as Hlen.
    rewrite length_app in Hlen. simpl in Hlen. lia.
Qed.

Lemma walk_offsets_range (sb : super_block) (es : list tar_entry) :
  forall fuel off count,
    walk fuel sb off count = Ret es ->
    Forall (fun e => 0 <= next_offset e < 2 ^ 33 + 512) es.
Proof.
  induction es as [|q es IH]; intros fuel off count Hw; constructor.
  - apply walk_cons in Hw as (p & f & Hp & -> & -> & Hw).
    rewrite next_offset_set_inode.
    apply tar_read_entry_some in Hp as (Hd & Hl & _).
    now apply next_offset_range.
  - apply walk_cons in Hw as (p & f & Hp & -> & -> & Hw).
    eapply IH; eassumption.
Qed.

End Index.

(** ** Inode numbers *)

(** Distinct numbers of a range cannot be more than the range holds. *)
Lemma bounded_NoDup_length (l : list Z) (N : Z) :
  0 <= N -> NoDup l -> Forall (fun x => 0 <= x < N) l ->
  Z.of_nat (List.length l) <= N.
Proof.
  intros HN Hnd Hall.
  assert (Hincl : incl l (map Z.of_nat (seq 0 (Z.to_nat N)))).
  { intros x Hx. rewrite Forall_forall in Hall. specialize (Hall x Hx).
    apply in_map_iff. exists (Z.to_nat x). split; [lia|].
    apply in_seq. lia. }
  apply (NoDup_incl_length Hnd) in Hincl.
  rewrite length_map, length_seq in Hincl. lia.
Qed.

Section Inodes.
Context {H : gnutar_h}.

(** An index has at most [2^33 + 512] entries. *)
Lemma walk_length_bound (sb : super_block) (es : list tar_entry)
    (fuel : nat) (off count : Z) :
  walk fuel sb off count = Ret es ->
  Z.of_nat (List.length es) <= 2 ^ 33 + 512.
Proof.
  intros Hw. rewrite <- (length_map next_offset).
  apply bounded_NoDup_length; [lia | eapply walk_offsets_NoDup; eassumption|].
  apply Forall_map. eapply walk_offsets_range; eassumption.
Qed.

(** While the counter does not wrap around, the entry at position [i] gets
    the number [count + i]. *)
Lemma walk_inode_nth (sb : super_block) (es : list tar_entry) :
  forall fuel off count,
    walk fuel sb off count = Ret es ->
    0 <= count -> count + Z.of_nat (List.length es) <= 2 ^ 64 ->
    forall i e, nth_error es i = Some e -> inode e = count + Z.of_nat i.
Proof.
  induction es as [|q es IH]; intros fuel off count Hw Hc Hb i e Hi.
  - destruct i; discriminate.
  - apply walk_cons in Hw as (p & f & Hp & -> & -> & Hw).
    destruct i as [|i]; simpl in Hi.
    + injection Hi as <-. simpl. lia.
    + destruct es as [|q' es]; [destruct i; discriminate|].
      simpl List.length in Hb.
      rewrite u64_small in Hw by lia.
      rewrite (IH _ _ _ Hw ltac:(lia) ltac:(simpl List.length; lia) i e Hi).
      lia.
Qed.

Lemma tar_open_inode_nth (fuel : nat) (sb : super_block)
    (es : list tar_entry) :
  tar_open fuel sb = Ret es ->
  forall i e, nth_error es i = Some e -> inode e = 2 + Z.of_nat i.
Proof.
  rewrite tar_open_walk. intros Hw.
  pose proof (walk_length_bound _ _ _ _ _ Hw) as Hlen.
  apply (walk_inode_nth _ _ _ _ _ Hw); lia.
Qed.

(** In a list numbered in order, the number finds the position. *)
Lemma tarfs_find_by_inode_nth (es : list tar_entry) :
  forall count,
    (forall i e, nth_error es i = Some e -> inode e = count + Z.of_nat i) ->
    forall i e, nth_error es i = Some e ->
      tarfs_find_by_inode es (count + Z.of_nat i) = Some e.
Proof.
  induction es as [|a es IH]; intros count Hnum i e Hi.
  - destruct i; discriminate.
  - pose proof (Hnum 0%nat a eq_refl) as Ha. cbn [tarfs_find_by_inode].
    destruct i as [|i]; simpl in Hi.
    + injection Hi as <-.
      destruct (inode a =? count + Z.of_nat 0) eqn:E; [reflexivity|].
      apply Z.eqb_neq in E. lia.
    + destruct (inode a =? count + Z.of_nat (S i)) eqn:E;
        [apply Z.eqb_eq in E; lia|].
      replace (count + Z.of_nat (S i)) with (count + 1 + Z.of_nat i) by lia.
      apply IH; [|exact Hi].
      intros k ek Hk. rewrite (Hnum (S k) ek Hk). lia.
Qed.

Lemma tar_find_some (es : list tar_entry) (dir base : list byte)
    (e : tar_entry) :
  tar_find es dir base = Some e ->
  path_is e dir base /\ exists i, nth_error es i = Some e.
Proof.
  induction es as [|a es IH]; simpl; [discriminate|].
  destruct ((strcmp (basename a) base =? 0) && (strcmp (dirname a) dir =? 0))
    eqn:E.
  - intros [= <-]. apply andb_true_iff in E as [Eb Ed].
    apply Z.eqb_eq in Eb, Ed. split; [split; assumption|].
    exists 0%nat. reflexivity.
  - intros Hf. apply IH in Hf as (Hp & i & Hi). split; [assumption|].
    exists (S i). exact Hi.
Qed.

(** C9.  In the index [tar_open] builds, the inode numbers grow strictly
    along the archive order, no number is given twice, and every number is
    above [ROOT_INO], the number of the root the driver makes up. *)
Theorem tar_open_inodes_increase (fuel : nat) (sb : super_block)
    (es : list tar_entry) :
  tar_open fuel sb = Ret es ->
  (forall i j ei ej, (i < j)%nat ->
     nth_error es i = Some ei -> nth_error es j = Some ej ->
     inode ei < inode ej)
  /\ NoDup (map inode es)
  /\ Forall (fun e => ROOT_INO < inode e) es.
Proof.
  intros Ho. pose proof (tar_open_inode_nth fuel sb es Ho) as Hnum.
  repeat split.
  - intros i j ei ej Hij Hi Hj.
    rewrite (Hnum i ei Hi), (Hnum j ej Hj). lia.
  - apply NoDup_nth_error. intros i j Hi Hij.
    rewrite length_map in Hi. rewrite !nth_error_map in Hij.
    destruct (nth_error es i) as [ei|] eqn:Ei;
      [|apply nth_error_None in Ei; lia].
    destruct (nth_error es j) as [ej|] eqn:Ej; [|discriminate].
    simpl in Hij. injection Hij as Hij.
    rewrite (Hnum i ei Ei), (Hnum j ej Ej) in Hij. lia.
  - apply Forall_forall. intros e He.
    apply In_nth_error in He as [i Hi].
    rewrite (Hnum i e Hi). unfold ROOT_INO. lia.
Qed.

(** C8.  In the index [tar_open] builds, the entry a path lookup finds is
    the entry the lookup by its own inode number finds. *)
Theorem tar_find_then_by_inode (fuel : nat) (sb : super_block)
    (es : list tar_entry) (dir base : list byte) (e : tar_entry) :
  tar_open fuel sb = Ret es ->
  tar_find es dir base = Some e ->
  tarfs_find_by_inode es (inode e) = Some e.
Proof.
  intros Ho Hf. pose proof (tar_open_inode_nth fuel sb es Ho) as Hnum.
  apply tar_find_some in Hf as (_ & i & Hi).
  rewrite (Hnum i e Hi). now apply tarfs_find_by_inode_nth.
Qed.

End Inodes.

Lemma tar_open_inodes_increase_witness :
  exists es,
    tar_open (H := gnu) 10 (device 512 archive_dup) = Ret es
    /\ NoDup (map inode es)
    /\ Forall (fun e => ROOT_INO < inode e) es.
Proof.
  eexists. split; [vm_compute; reflexivity|].
  apply (tar_open_inodes_increase (H := gnu) 10 (device 512 archive_dup)).
  vm_compute. reflexivity.
Defined.

Lemma tar_find_then_by_inode_witness :
  exists es e,
    tar_open (H := gnu) 10 (device 512 archive_a) = Ret es
    /\ tar_find es (list_byte_of_string "a") (list_byte_of_string "b.txt")
       = Some e
    /\ tarfs_find_by_inode es (inode e) = Some e.
Proof.
  do 2 eexists. split; [vm_compute; reflexivity|].
  split; [vm_compute; reflexivity|].
  apply (tar_find_then_by_inode (H := gnu) 10 (device 512 archive_a) _
           (list_byte_of_string "a") (list_byte_of_string "b.txt"));
    vm_compute; reflexivity.
Defined.

(** ** Where the index ends *)

Section Stop.
Context {H : gnutar_h}.

(** A header without the magic decodes to [NULL]. *)
Lemma tar_read_entry_no_magic (sb : super_block) (off n : Z)
    (header : star_header) :
  tarfs_read (u64 sizeof_star_header) off sb = Ret (n, header) ->
  memcmp (at_member header star_magic) OLDGNU_MAGIC
         (Z.to_nat (sizeof star_magic)) <> 0 ->
  tar_read_entry sb off = Ret None.
Proof.
  intros Hr Hm. unfold tar_read_entry. rewrite Hr. cbn [bind].
  destruct (negb (n =? u64 sizeof_star_header)); [reflexivity|].
  apply Z.eqb_neq in Hm. rewrite Hm. reflexivity.
Qed.



(** C3, as the code has it.  When the first header can be read and fails
    the magic check, [tar_open] returns the empty list, and [tarfs_fill_sb]
    takes the empty list for a failure: it returns [-ENOMEM]. *)
Theorem tar_open_without_magic (fuel : nat) (sb : super_block) (n : Z)
    (header : star_header) (new_inode_ok d_make_root_ok : bool) :
  tarfs_read (u64 sizeof_star_header) 0 sb = Ret (n, header) ->
  memcmp (at_member header star_magic) OLDGNU_MAGIC
         (Z.to_nat (sizeof star_magic)) <> 0 ->
  tar_open fuel sb = Ret []
  /\ tarfs_fill_sb fuel sb new_inode_ok d_make_root_ok = Ret (- ENOMEM, []).
Proof.
  intros Hr Hm.
  assert (Ho : tar_open fuel sb = Ret []).
  { unfold tar_open.
    rewrite (tar_read_entry_no_magic sb 0 n header Hr Hm).
    destruct fuel; reflexivity. }
  split; [exact Ho|].
  unfold tarfs_fill_sb. rewrite Ho. reflexivity.
Qed.

End Stop.

Lemma tar_open_without_magic_witness :
  tar_open (H := gnu) 10 (device 512 end_marker) = Ret []
  /\ tarfs_fill_sb (H := gnu) 10 (device 512 end_marker) true true
     = Ret (- ENOMEM, []).
Proof.
  eapply (tar_open_without_magic (H := gnu) 10 (device 512 end_marker) 500).
  - vm_compute. reflexivity.
  - vm_compute. discriminate.
Defined.

(** C3, against the claim.  A device that holds nothing but the end marker
    of an archive: the index is empty and the mount fails with [-ENOMEM].
    A device without any block: the header cannot be fetched and the block
    reader dereferences [NULL]. *)
Lemma empty_index_fails_the_mount :
  tar_open (H := gnu) 10 (device 512 end_marker) = Ret []
  /\ tarfs_fill_sb (H := gnu) 10 (device 512 end_marker) true true
     = Ret (-12, [])
  /\ tarfs_fill_sb (H := gnu) 10 (device 512 []) true true = Fault.
Proof. repeat split; vm_compute; reflexivity. Qed.

(** ** Names *)

Lemma memchr_some (s : list byte) (c : byte) (n : nat) :
  forall p, memchr s c n = Some p -> 0 <= p /\ (Z.to_nat p < List.length s)%nat.
Proof.
  revert s. induction n as [|n IH]; intros s p;
    (destruct s as [|x s]; [discriminate|]); [discriminate|]. simpl.
  destruct (Byte.eqb x c).
  - intros [= <-]. simpl. lia.
  - destruct (memchr s c n) as [q|] eqn:E; simpl; [|discriminate].
    intros [= <-]. destruct (IH s q E) as [Hq Hl]. simpl. lia.
Qed.

Lemma map_nth_seq (m : list byte) :
  forall k, (k <= List.length m)%nat ->
            map (fun i => nth i m x00) (seq 0 k) = firstn k m.
Proof.
  induction m as [|a m IH]; intros k Hk; simpl in Hk.
  - assert (k = 0%nat) as -> by lia. reflexivity.
  - destruct k as [|k]; [reflexivity|].
    cbn [seq map firstn nth]. f_equal.
    rewrite map_seq_from. cbn [Nat.add nth]. apply IH. lia.
Qed.

(** Copying [p] bytes from the start of [m] takes its first [p] bytes. *)
Lemma memcpy_firstn (m : list byte) (p : Z) :
  (Z.to_nat p <= List.length m)%nat ->
  memcpy m 0 p = firstn (Z.to_nat p) m.
Proof.
  intros Hp. unfold memcpy. rewrite <- (map_nth_seq m) by assumption.
  apply map_ext. intros i. f_equal. lia.
Qed.

Lemma byte_eqb_refl (x : byte) : Byte.eqb x x = true.
Proof. now apply Byte.byte_dec_lb. Qed.

Lemma strcmp_refl (a : list byte) : strcmp a a = 0.
Proof.
  induction a as [|x a IH]; [reflexivity|].
  cbn [strcmp hd]. rewrite byte_eqb_refl.
  destruct (Byte.eqb x x00); [reflexivity | exact IH].
Qed.

(** ** Lookup by path *)

(** [tar_find] returns the first entry of the list that has the path. *)
Lemma tar_find_first (es : list tar_entry) (dir base : list byte) :
  forall i ei,
    nth_error es i = Some ei ->
    path_is ei dir base ->
    (forall k ek, (k < i)%nat -> nth_error es k = Some ek ->
                  ~ path_is ek dir base) ->
    tar_find es dir base = Some ei.
Proof.
  induction es as [|a es IH]; intros i ei Hi Hp Hbefore.
  - destruct i; discriminate.
  - cbn [tar_find].
    destruct ((strcmp (basename a) base =? 0)
              && (strcmp (dirname a) dir =? 0)) eqn:E.
    + destruct i as [|i]; [simpl in Hi; congruence|].
      exfalso. apply (Hbefore 0%nat a ltac:(lia) eq_refl).
      apply andb_true_iff in E as [Eb Ed]. apply Z.eqb_eq in Eb, Ed.
      split; assumption.
    + destruct i as [|i]; simpl in Hi.
      * injection Hi as <-. destruct Hp as [Hb Hd].
        rewrite Hb, Hd in E. discriminate.
      * apply (IH i ei Hi Hp). intros k ek Hk Hek.
        apply (Hbefore (S k) ek ltac:(lia) Hek).
Qed.

(** C2, as the code has it.  Of two entries with the same directory and
    name at the positions [i < j], where no entry before [i] has that path,
    [tar_find] from the head of the list returns the one at [i]: the first
    in the order of the archive. *)
Theorem tar_find_first_of_duplicates (es : list tar_entry) (i j : nat)
    (ei ej : tar_entry) :
  (i < j)%nat ->
  nth_error es i = Some ei -> nth_error es j = Some ej ->
  dirname ei = dirname ej -> basename ei = basename ej ->
  (forall k ek, (k < i)%nat -> nth_error es k = Some ek ->
                ~ path_is ek (dirname ej) (basename ej)) ->
  tar_find es (dirname ej) (basename ej) = Some ei.
Proof.
  intros _ Hi _ Hd Hb Hbefore.
  apply (tar_find_first es _ _ i ei Hi); [|exact Hbefore].
  unfold path_is. rewrite Hd, Hb. split; apply strcmp_refl.
Qed.

Lemma tar_find_first_of_duplicates_witness :
  exists e1 e2,
    tar_open (H := gnu) 10 (device 512 archive_dup) = Ret [e1; e2]
    /\ tar_find [e1; e2] (dirname e2) (basename e2) = Some e1.
Proof.
  do 2 eexists. split; [vm_compute; reflexivity|].
  apply (tar_find_first_of_duplicates _ 0 1 _ _);
    try reflexivity; try lia.
Defined.

(** C2, against the claim.  [archive_dup] holds the path [f] at the
    positions 0 and 1; the lookup returns the entry of position 0, which
    has the inode number 2, and not the later one. *)
Lemma tar_find_returns_first_duplicate :
  exists e1 e2,
    tar_open (H := gnu) 10 (device 512 archive_dup) = Ret [e1; e2]
    /\ dirname e1 = dirname e2 /\ basename e1 = basename e2
    /\ inode e1 = 2 /\ inode e2 = 3
    /\ tar_find [e1; e2] (dirname e2) (basename e2) = Some e1
    /\ e1 <> e2.
Proof.
  do 2 eexists. split; [vm_compute; reflexivity|].
  repeat split; try (vm_compute; reflexivity).
  intros E. apply (f_equal inode) in E. discriminate.
Qed.

(** * Further properties of the code *)

(** ** Reading from a device that holds the bytes asked for *)

(** As [tarfs_read_loop_bytes], when only the blocks under the bytes asked
    for can be read. *)
Lemma tarfs_read_loop_range fuel :
  forall sb buffer size offset pos,
    0 < s_blocksize sb < 2 ^ 63 ->
    0 <= size -> 0 <= pos -> 0 <= offset ->
    offset + pos + size <= 2 ^ 32 ->
    (forall a, offset + pos <= a < offset + pos + size ->
               sb_bread sb (a / s_blocksize sb) <> None) ->
    (Z.to_nat size <= fuel)%nat ->
    tarfs_read_loop fuel sb buffer size offset pos =
    Ret (pos + size, buffer ++ device_bytes sb (offset + pos) size).
Proof.
  induction fuel as [|fuel IH];
    intros sb buffer size offset pos HB Hs Hp Ho Hb Hall Hf;
    rewrite tarfs_read_loop_eq, Z.gtb_ltb;
    destruct (0 <? size) eqn:Es;
    try (apply Z.ltb_ge in Es; assert (size = 0) as -> by lia;
         unfold device_bytes; simpl; rewrite app_nil_r, Z.add_0_r;
         reflexivity).
  - apply Z.ltb_lt in Es. lia.
  - apply Z.ltb_lt in Es.
    destruct (s_blocksize sb =? 0) eqn:E0; [apply Z.eqb_eq in E0; lia|].
    cbv zeta.
    rewrite (u64_small (offset + pos)) by lia.
    pose proof (Z.mod_pos_bound (offset + pos) (s_blocksize sb) ltac:(lia))
      as Hm.
    assert (Hq : 0 <= (offset + pos) / s_blocksize sb <= offset + pos).
    { split; [apply Z.div_pos; lia|].
      apply Z.div_le_upper_bound; nia. }
    rewrite (u32_small ((offset + pos) / s_blocksize sb)) by lia.
    rewrite (s64_small ((offset + pos) mod s_blocksize sb)) by lia.
    destruct (sb_bread sb ((offset + pos) / s_blocksize sb)) as [bh|] eqn:Eb;
      [|exfalso; apply (Hall (offset + pos)); [lia | exact Eb]].
    assert (Hk : min_t_size_t (s_blocksize sb
                               - (offset + pos) mod s_blocksize sb) size
                 = Z.min (s_blocksize sb
                          - (offset + pos) mod s_blocksize sb) size).
    { unfold min_t_size_t. rewrite !u64_small by lia. reflexivity. }
    rewrite Hk.
    set (k := Z.min (s_blocksize sb - (offset + pos) mod s_blocksize sb) size)
      in *.
    rewrite (u64_small (size - k)), (u64_small (pos + k)) by lia.
    rewrite IH; try assumption; try lia;
      [|intros a Ha; apply Hall; lia].
    rewrite (memcpy_device_bytes sb bh (offset + pos) k)
      by (try assumption; lia).
    assert (Hsplit : device_bytes sb (offset + pos) size =
                     device_bytes sb (offset + pos) k
                     ++ device_bytes sb (offset + pos + k) (size - k)).
    { rewrite <- device_bytes_app by lia. f_equal. lia. }
    rewrite Hsplit, <- app_assoc, (Z.add_assoc offset pos k).
    f_equal. f_equal. lia.
Qed.

(** X1.  Below 4 GiB, when the blocks under the bytes asked for can be
    read, [tarfs_read] returns the size asked for and stores exactly the
    bytes of the device from [offset] on, whatever the block size and
    wherever the block boundaries fall. *)
Theorem tarfs_read_device_bytes (sb : super_block) (size offset : Z) :
  0 < s_blocksize sb < 2 ^ 63 ->
  0 <= size -> 0 <= offset -> offset + size <= 2 ^ 32 ->
  (forall a, offset <= a < offset + size ->
             sb_bread sb (a / s_blocksize sb) <> None) ->
  tarfs_read size offset sb = Ret (size, device_bytes sb offset size).
Proof.
  intros HB Hs Ho Hb Hall. unfold tarfs_read.
  rewrite tarfs_read_loop_range; try assumption; try lia.
  - rewrite Z.add_0_r. reflexivity.
  - intros a Ha. apply Hall. lia.
Qed.

(** A byte address below [n] lies in block [0] of a device of blocks of
    [n] bytes, and so on: the quotient of an address in a known block. *)
Lemma div_in_block (a B q : Z) :
  0 < B -> q * B <= a < q * B + B -> a / B = q.
Proof.
  intros HB Ha. symmetry. apply (Z.div_unique a B q (a - q * B)); lia.
Qed.

Lemma tarfs_read_device_bytes_witness :
  tarfs_read 5 1024 (device 512 archive_a)
  = Ret (5, device_bytes (device 512 archive_a) 1024 5).
Proof.
  apply (tarfs_read_device_bytes (device 512 archive_a) 5 1024).
  - simpl. lia.
  - lia.
  - lia.
  - lia.
  - intros a Ha. change (s_blocksize (device 512 archive_a)) with 512.
    rewrite (div_in_block a 512 2) by lia. vm_compute. discriminate.
Defined.

(** ** Reading a payload *)

Lemma tar_read_range (sb : super_block) (entry : tar_entry) (off len : Z) :
  0 < s_blocksize sb < 2 ^ 63 ->
  0 <= data_offset entry ->
  data_offset entry + length entry <= 2 ^ 32 ->
  (forall a, data_offset entry <= a < data_offset entry + length entry ->
             sb_bread sb (a / s_blocksize sb) <> None) ->
  0 <= off <= length entry ->
  0 <= len < 2 ^ 64 ->
  tar_read sb entry off len =
  Ret (Z.min len (length entry - off),
       device_bytes sb (data_offset entry + off)
                    (Z.min len (length entry - off))).
Proof.
  intros HB Hd Hend Hall Hoff Hlen. unfold tar_read, min_t_size_t.
  rewrite (u64_small len), (u64_small (length entry - off)) by lia.
  destruct (Z.eq_dec (Z.min len (length entry - off)) 0) as [E|E].
  - rewrite E. reflexivity.
  - rewrite (u32_small (data_offset entry + off)) by lia.
    unfold tarfs_read.
    rewrite tarfs_read_loop_range; try assumption; try lia.
    + rewrite Z.add_0_r. reflexivity.
    + intros a Ha. apply Hall. lia.
Qed.

(** X2.  For a payload that lies below 4 GiB on blocks that can be read, a
    read at an offset inside the payload (its end included) returns
    [min len (length - off)] and stores exactly that many bytes of the
    device, from [data_offset + off] on: the read is cut at the end of the
    payload and never delivers a byte from behind it. *)
Theorem tar_read_clamps (sb : super_block) (entry : tar_entry) (off len : Z) :
  0 < s_blocksize sb < 2 ^ 63 ->
  0 <= data_offset entry ->
  data_offset entry + length entry <= 2 ^ 32 ->
  (forall a, data_offset entry <= a < data_offset entry + length entry ->
             sb_bread sb (a / s_blocksize sb) <> None) ->
  0 <= off <= length entry ->
  0 <= len < 2 ^ 64 ->
  tar_read sb entry off len =
  Ret (Z.min len (length entry - off),
       device_bytes sb (data_offset entry + off)
                    (Z.min len (length entry - off))).
Proof. exact (tar_read_range sb entry off len). Qed.

Lemma tar_read_clamps_witness :
  exists a b,
    tar_open (H := gnu) 10 (device 512 archive_a) = Ret [a; b]
    /\ tar_read (device 512 archive_a) b 3 10
       = Ret (Z.min 10 (length b - 3),
              device_bytes (device 512 archive_a) (data_offset b + 3)
                           (Z.min 10 (length b - 3))).
Proof.
  do 2 eexists. split; [vm_compute; reflexivity|].
  apply (tar_read_clamps (device 512 archive_a) _ 3 10).
  - simpl. lia.
  - simpl. lia.
  - simpl. lia.
  - intros a Ha. simpl in Ha.
    change (s_blocksize (device 512 archive_a)) with 512.
    rewrite (div_in_block a 512 2) by lia. vm_compute. discriminate.
  - simpl. lia.
  - lia.
Defined.

Lemma read_chunks_range (sb : super_block) (entry : tar_entry) :
  0 < s_blocksize sb < 2 ^ 63 ->
  0 <= data_offset entry ->
  data_offset entry + length entry <= 2 ^ 32 ->
  (forall a, data_offset entry <= a < data_offset entry + length entry ->
             sb_bread sb (a / s_blocksize sb) <> None) ->
  forall chunks off,
    Forall (fun len => 0 <= len) chunks ->
    0 <= off ->
    off + fold_right Z.add 0 chunks <= length entry ->
    read_chunks sb entry off chunks =
    Ret (device_bytes sb (data_offset entry + off)
                      (fold_right Z.add 0 chunks)).
Proof.
  intros HB Hd Hend Hall chunks.
  induction chunks as [|len chunks IH]; intros off Hpos Hoff Hsum.
  - reflexivity.
  - inversion Hpos as [|? ? Hlen Hrest]; subst. simpl in Hsum |- *.
    assert (Hs : 0 <= fold_right Z.add 0 chunks).
    { clear -Hrest. induction Hrest; simpl; lia. }
    rewrite tar_read_range by (try assumption; lia).
    rewrite Z.min_l by lia. simpl.
    rewrite IH by (try assumption; lia). simpl.
    rewrite device_bytes_app by lia.
    rewrite Z.add_assoc. reflexivity.
Qed.

(** X3.  For a payload that lies below 4 GiB on blocks that can be read,
    the reads of any tiling of [0, L) into chunks, put together, are the
    bytes of the one read of [L] bytes from 0, and both are the [L] bytes
    of the device from [data_offset] on. *)
Theorem tar_read_tiles (sb : super_block) (entry : tar_entry)
    (chunks : list Z) :
  0 < s_blocksize sb < 2 ^ 63 ->
  0 <= data_offset entry -> 0 <= length entry ->
  data_offset entry + length entry <= 2 ^ 32 ->
  (forall a, data_offset entry <= a < data_offset entry + length entry ->
             sb_bread sb (a / s_blocksize sb) <> None) ->
  Forall (fun len => 0 <= len) chunks ->
  fold_right Z.add 0 chunks = length entry ->
  tar_read sb entry 0 (length entry)
  = Ret (length entry, device_bytes sb (data_offset entry) (length entry))
  /\ read_chunks sb entry 0 chunks
     = Ret (device_bytes sb (data_offset entry) (length entry)).
Proof.
  intros HB Hd Hl Hend Hall Hpos Hsum. split.
  - rewrite tar_read_range by (try assumption; lia).
    rewrite Z.sub_0_r, Z.min_id, Z.add_0_r. reflexivity.
  - rewrite (read_chunks_range sb entry HB Hd Hend Hall chunks 0)
      by (try assumption; lia).
    rewrite Hsum, Z.add_0_r. reflexivity.
Qed.

Lemma tar_read_tiles_witness :
  exists a b,
    tar_open (H := gnu) 10 (device 512 archive_a) = Ret [a; b]
    /\ read_chunks (device 512 archive_a) b 0 [2; 0; 3]
       = Ret (device_bytes (device 512 archive_a) (data_offset b) (length b)).
Proof.
  do 2 eexists. split; [vm_compute; reflexivity|].
  apply (tar_read_tiles (device 512 archive_a) _ [2; 0; 3]).
  - simpl. lia.
  - simpl. lia.
  - simpl. lia.
  - simpl. lia.
  - intros a Ha. simpl in Ha.
    change (s_blocksize (device 512 archive_a)) with 512.
    rewrite (div_in_block a 512 2) by lia. vm_compute. discriminate.
  - repeat constructor; lia.
  - reflexivity.
Defined.

(** ** Strings *)

Lemma Z_of_byte_inj (x y : byte) : Z_of_byte x = Z_of_byte y -> x = y.
Proof.
  unfold Z_of_byte. intros E. apply N2Z.inj in E.
  pose proof (Byte.of_to_N x) as Hx. rewrite E, Byte.of_to_N in Hx.
  congruence.
Qed.

Lemma Forall_firstn_any {A : Type} (P : A -> Prop) (l : list A) :
  forall n, Forall P l -> Forall P (firstn n l).
Proof.
  induction l as [|a l IH]; intros [|n] Hl; simpl; try constructor.
  - now inversion Hl.
  - apply IH. now inversion Hl.
Qed.

Lemma Forall_skipn_any {A : Type} (P : A -> Prop) (l : list A) :
  forall n, Forall P l -> Forall P (skipn n l).
Proof.
  induction l as [|a l IH]; intros [|n] Hl; simpl; try assumption.
  apply IH. now inversion Hl.
Qed.

(** A list without NUL is its own C string. *)
Lemma c_str_nul_free (s : list byte) :
  Forall (fun x => x <> x00) s -> c_str s = s.
Proof.
  induction 1 as [|x s Hx _ IH]; [reflexivity|]. simpl.
  destruct (Byte.eqb x x00) eqn:E;
    [apply Byte.byte_dec_bl in E; contradiction|].
  now rewrite IH.
Qed.

(** [strcmp] is 0 exactly for equal C strings. *)
Lemma strcmp_zero_iff (a : list byte) :
  forall b, strcmp a b = 0 <-> c_str a = c_str b.
Proof.
  induction a as [|x a IH]; intros b.
  - destruct b as [|y b]; cbn [strcmp hd c_str].
    + tauto.
    + destruct (Byte.eqb x00 y) eqn:E.
      * apply Byte.byte_dec_bl in E. subst y. simpl. tauto.
      * split.
        -- intros Hz. exfalso. apply Byte.eqb_false in E. apply E.
           apply Z_of_byte_inj. lia.
        -- destruct (Byte.eqb y x00) eqn:E'; [|discriminate].
           apply Byte.byte_dec_bl in E'. subst y. discriminate.
  - destruct b as [|y b]; cbn [strcmp hd c_str].
    + destruct (Byte.eqb x x00) eqn:E; [tauto|].
      split; [|discriminate].
      intros Hz. exfalso. apply Byte.eqb_false in E. apply E.
      apply Z_of_byte_inj. lia.
    + destruct (Byte.eqb x y) eqn:E.
      * apply Byte.byte_dec_bl in E. subst y.
        destruct (Byte.eqb x x00); [tauto|].
        rewrite IH. split; [congruence|]. now intros [= ->].
      * apply Byte.eqb_false in E. split.
        -- intros Hz. exfalso. apply E. apply Z_of_byte_inj. lia.
        -- destruct (Byte.eqb x x00) eqn:Ex, (Byte.eqb y x00) eqn:Ey;
             try discriminate.
           ++ apply Byte.byte_dec_bl in Ex, Ey. congruence.
           ++ intros [= -> _]. contradiction.
Qed.

Lemma strcmp_eq (a b : list byte) :
  Forall (fun x => x <> x00) a -> Forall (fun x => x <> x00) b ->
  strcmp a b = 0 -> a = b.
Proof.
  intros Ha Hb Hz. apply strcmp_zero_iff in Hz.
  now rewrite !c_str_nul_free in Hz.
Qed.

Lemma strcmp_zero_sym (a b : list byte) : strcmp a b = 0 -> strcmp b a = 0.
Proof. rewrite !strcmp_zero_iff. congruence. Qed.

(** The bytes before the place [memchr] finds are not the byte sought. *)
Lemma memchr_before (s : list byte) (c : byte) (n : nat) :
  forall p, memchr s c n = Some p ->
            Forall (fun x => x <> c) (firstn (Z.to_nat p) s).
Proof.
  revert s. induction n as [|n IH]; intros s p;
    (destruct s as [|x s]; [discriminate|]); [discriminate|]. simpl.
  destruct (Byte.eqb x c) eqn:E.
  - intros [= <-]. constructor.
  - destruct (memchr s c n) as [q|] eqn:Eq; simpl; [|discriminate].
    intros [= <-]. destruct (memchr_some _ _ _ _ Eq) as [Hq _].
    replace (Z.to_nat (Z.succ q)) with (S (Z.to_nat q)) by lia. simpl.
    constructor; [now apply Byte.eqb_false | now apply IH].
Qed.

(** In a string without NUL, [strrchr] finds the last occurrence. *)
Lemma strrchr_none (s : list byte) (c : byte) :
  Forall (fun x => x <> x00) s ->
  strrchr s c = None -> Forall (fun x => x <> c) s.
Proof.
  induction 1 as [|x s Hx _ IH]; [constructor|]. simpl.
  destruct (Byte.eqb x x00) eqn:E0;
    [apply Byte.byte_dec_bl in E0; contradiction|].
  destruct (strrchr s c) as [i|]; [discriminate|].
  destruct (Byte.eqb x c) eqn:E; [discriminate|].
  intros _. constructor; [now apply Byte.eqb_false | now apply IH].
Qed.

Lemma strrchr_some (s : list byte) (c : byte) :
  Forall (fun x => x <> x00) s ->
  forall i, strrchr s c = Some i ->
    0 <= i
    /\ s = firstn (Z.to_nat i) s ++ c :: skipn (Z.to_nat (i + 1)) s
    /\ Forall (fun x => x <> c) (skipn (Z.to_nat (i + 1)) s).
Proof.
  induction 1 as [|x s Hx Hs IH]; intros i; [discriminate|]. simpl strrchr.
  destruct (Byte.eqb x x00) eqn:E0;
    [apply Byte.byte_dec_bl in E0; contradiction|].
  destruct (strrchr s c) as [j|] eqn:Ej.
  - intros [= <-]. destruct (IH j eq_refl) as (Hj & Hsplit & Hrest).
    replace (Z.to_nat (j + 1 + 1)) with (S (Z.to_nat (j + 1))) by lia.
    replace (Z.to_nat (j + 1)) with (S (Z.to_nat j)) at 1 by lia.
    cbn [firstn skipn app]. repeat split; [lia | | assumption].
    f_equal. exact Hsplit.
  - destruct (Byte.eqb x c) eqn:E; [|discriminate].
    intros [= <-]. apply Byte.byte_dec_bl in E. subst x.
    cbn [Z.to_nat firstn app]. simpl skipn.
    repeat split; [lia|]. now apply strrchr_none.
Qed.

(** ** What an entry of the index holds *)

Section Entries.
Context {H : gnutar_h}.

Lemma build_name_nul_free (header : star_header) (s : list byte) :
  build_name header = Ret s -> Forall (fun x => x <> x00) s.
Proof.
  unfold build_name.
  destruct (memchr (at_member header star_prefix) _ _) as [p|] eqn:Ep;
    [|discriminate].
  destruct (memchr (at_member header star_name) _ _) as [n|] eqn:En;
    [|discriminate].
  destruct (memchr_some _ _ _ _ Ep) as [Hp0 Hpl].
  destruct (memchr_some _ _ _ _ En) as [Hn0 Hnl].
  rewrite !memcpy_firstn by lia.
  assert (Hall : Forall (fun x => x <> x00)
                   (firstn (Z.to_nat p) (at_member header star_prefix)
                    ++ firstn (Z.to_nat n) (at_member header star_name))).
  { apply Forall_app. split; eapply memchr_before; eassumption. }
  destruct (p + n =? 0); [discriminate|].
  destruct (Byte.eqb _ x2f); intros [= <-];
    [now apply Forall_firstn_any | assumption].
Qed.

(** The members of an entry [tar_read_entry] returns, by what they were
    computed from. *)
Lemma tar_read_entry_fields (sb : super_block) (off : Z) (e : tar_entry) :
  tar_read_entry sb off = Ret (Some e) ->
  exists full,
    tarfs_read (u64 sizeof_star_header) off sb
    = Ret (u64 sizeof_star_header, header e)
    /\ build_name (header e) = Ret full
    /\ dirname e = match strrchr full x2f with
                   | Some i => firstn (Z.to_nat i) full
                   | None => []
                   end
    /\ basename e = match strrchr full x2f with
                    | Some i => skipn (Z.to_nat (i + 1)) full
                    | None => full
                    end
    /\ offset e = u32 off
    /\ data_offset e
       = u32 (u64 (u64 (off + u64 sizeof_star_header)
                   + ALIGN_SECTOR (u64 sizeof_star_header))).
Proof.
  unfold tar_read_entry. intros Hr.
  step_in Hr. step_in Hr. step_in Hr; [discriminate|].
  step_in Hr; [discriminate|].
  step_in Hr. step_in Hr; [|discriminate].
  step_in Hr. step_in Hr; [|discriminate].
  step_in Hr. step_in Hr; [|discriminate].
  step_in Hr. step_in Hr; [|discriminate].
  do 4 step_in Hr.
  apply negb_false_iff, Z.eqb_eq in E0. subst z.
  exists a2.
  destruct (strrchr a2 x2f) as [i|]; injection Hr as <-;
    cbn [header dirname basename offset data_offset]; auto 10.
Qed.

(** The names of a decoded entry hold no NUL, and the base name holds no
    slash. *)
Lemma tar_read_entry_names (sb : super_block) (off : Z) (e : tar_entry) :
  tar_read_entry sb off = Ret (Some e) ->
  Forall (fun x => x <> x00) (dirname e)
  /\ Forall (fun x => x <> x00) (basename e)
  /\ Forall (fun x => x <> x2f) (basename e).
Proof.
  intros Hr.
  apply tar_read_entry_fields in Hr as (full & _ & Hb & -> & -> & _).
  apply build_name_nul_free in Hb.
  destruct (strrchr full x2f) as [i|] eqn:Ei.
  - destruct (strrchr_some full x2f Hb i Ei) as (_ & _ & Hrest).
    repeat split; [now apply Forall_firstn_any | now apply Forall_skipn_any
                  | assumption].
  - repeat split; [constructor | assumption | now apply strrchr_none].
Qed.

(** A property of every decoded entry that the inode number does not
    touch holds for every entry of a walk. *)
Lemma walk_Forall (P : tar_entry -> Prop) (sb : super_block) :
  (forall off p, tar_read_entry sb off = Ret (Some p) -> P p) ->
  (forall p count, P p -> P (set_inode p count)) ->
  forall es fuel off count,
    walk fuel sb off count = Ret es -> Forall P es.
Proof.
  intros Hread Hset es.
  induction es as [|q es IH]; intros fuel off count Hw; constructor;
    apply walk_cons in Hw as (p & f & Hp & -> & -> & Hw).
  - apply Hset. eapply Hread. eassumption.
  - eapply IH. eassumption.
Qed.

(** X5.  In the index [tar_open] builds no directory name and no base name
    holds a NUL, and no base name holds a slash. *)
Theorem tar_open_names (fuel : nat) (sb : super_block)
    (es : list tar_entry) :
  tar_open fuel sb = Ret es ->
  Forall (fun e => Forall (fun x => x <> x00) (dirname e)
                   /\ Forall (fun x => x <> x00) (basename e)
                   /\ Forall (fun x => x <> x2f) (basename e)) es.
Proof.
  rewrite tar_open_walk.
  apply walk_Forall; [|intros p count Hp; exact Hp].
  intros off p. apply tar_read_entry_names.
Qed.

End Entries.

Lemma tar_open_names_witness :
  exists es,
    tar_open (H := gnu) 10 (device 512 archive_a) = Ret es
    /\ Forall (fun e => Forall (fun x => x <> x00) (dirname e)
                        /\ Forall (fun x => x <> x00) (basename e)
                        /\ Forall (fun x => x <> x2f) (basename e)) es.
Proof.
  eexists. split; [vm_compute; reflexivity|].
  apply (tar_open_names (H := gnu) 10 (device 512 archive_a)).
  vm_compute. reflexivity.
Defined.

(** ** Lookup in the index *)

(** The entry [tar_find] returns is the first with the path. *)
Lemma tar_find_index (es : list tar_entry) (dir base : list byte)
    (e : tar_entry) :
  tar_find es dir base = Some e ->
  exists i,
    nth_error es i = Some e /\ path_is e dir base
    /\ forall k ek, (k < i)%nat -> nth_error es k = Some ek ->
                    ~ path_is ek dir base.
Proof.
  induction es as [|a es IH]; simpl; [discriminate|].
  destruct ((strcmp (basename a) base =? 0) && (strcmp (dirname a) dir =? 0))
    eqn:E.
  - intros [= <-]. apply andb_true_iff in E as [Eb Ed].
    apply Z.eqb_eq in Eb, Ed. exists 0%nat.
    split; [reflexivity|]. split; [split; assumption|].
    intros k ek Hk. lia.
  - intros Hf. apply IH in Hf as (i & Hi & Hp & Hbefore).
    exists (S i). split; [exact Hi|]. split; [exact Hp|].
    intros [|k] ek Hk Hek; simpl in Hek.
    + injection Hek as <-. intros [Hb Hd]. rewrite Hb, Hd in E. discriminate.
    + apply (Hbefore k ek); [lia | assumption].
Qed.

(** X4.  [tar_find] finds nothing exactly when no entry of the list has the
    path, and an entry it returns is in the list, has the path, and has no
    entry with the path before it. *)
Theorem tar_find_sound_complete (es : list tar_entry) (dir base : list byte) :
  (tar_find es dir base = None <->
   forall e, In e es -> ~ path_is e dir base)
  /\ (forall e, tar_find es dir base = Some e ->
        exists i, nth_error es i = Some e /\ path_is e dir base
                  /\ forall k ek, (k < i)%nat -> nth_error es k = Some ek ->
                                  ~ path_is ek dir base).
Proof.
  split; [|intros e; apply tar_find_index].
  split.
  - intros Hnone e He Hp. apply In_nth_error in He as [j Hj].
    revert j Hj. induction es as [|a es IH]; intros j Hj;
      [destruct j; discriminate|].
    simpl in Hnone.
    destruct ((strcmp (basename a) base =? 0)
              && (strcmp (dirname a) dir =? 0)) eqn:E; [discriminate|].
    destruct j as [|j]; simpl in Hj.
    + injection Hj as <-. destruct Hp as [Hb Hd]. rewrite Hb, Hd in E.
      discriminate.
    + eapply IH; eassumption.
  - intros Hall. destruct (tar_find es dir base) as [e|] eqn:E;
      [|reflexivity].
    apply tar_find_index in E as (i & Hi & Hp & _).
    exfalso. apply (Hall e); [eapply nth_error_In; eassumption | assumption].
Qed.

Section Lookup.
Context {H : gnutar_h}.

(** X6.  In the index [tar_open] builds, a lookup with a directory and a
    name without NUL returns only an entry whose directory and base name
    are these very byte strings. *)
Theorem tar_find_exact (fuel : nat) (sb : super_block) (es : list tar_entry)
    (dir base : list byte) (e : tar_entry) :
  tar_open fuel sb = Ret es ->
  Forall (fun x => x <> x00) dir -> Forall (fun x => x <> x00) base ->
  tar_find es dir base = Some e ->
  In e es /\ dirname e = dir /\ basename e = base.
Proof.
  intros Ho Hd Hb Hf. apply tar_find_index in Hf as (i & Hi & [Hpb Hpd] & _).
  assert (He : In e es) by (eapply nth_error_In; eassumption).
  pose proof (Hnames := walk_Forall
    (fun e => Forall (fun x => x <> x00) (dirname e)
              /\ Forall (fun x => x <> x00) (basename e)
              /\ Forall (fun x => x <> x2f) (basename e)) sb
    (fun off p => tar_read_entry_names sb off p)
    (fun p count Hp => Hp) es fuel 0 2 Ho).
  rewrite Forall_forall in Hnames.
  destruct (Hnames e He) as (Hnd & Hnb & _).
  repeat split; [assumption | now apply strcmp_eq | now apply strcmp_eq].
Qed.

(** X7.  Every entry of the index [tar_open] builds is found by its own
    directory and base name, or an earlier entry with the same directory
    and base name is found in its place. *)
Theorem tar_find_own_path (fuel : nat) (sb : super_block)
    (es : list tar_entry) (e : tar_entry) :
  tar_open fuel sb = Ret es ->
  In e es ->
  exists e',
    tar_find es (dirname e) (basename e) = Some e'
    /\ dirname e' = dirname e /\ basename e' = basename e
    /\ inode e' <= inode e.
Proof.
  intros Ho He.
  pose proof (Hnames := walk_Forall
    (fun e => Forall (fun x => x <> x00) (dirname e)
              /\ Forall (fun x => x <> x00) (basename e)
              /\ Forall (fun x => x <> x2f) (basename e)) sb
    (fun off p => tar_read_entry_names sb off p)
    (fun p count Hp => Hp) es fuel 0 2 Ho).
  rewrite Forall_forall in Hnames.
  assert (Hp : path_is e (dirname e) (basename e))
    by (split; apply strcmp_refl).
  destruct (tar_find es (dirname e) (basename e)) as [e'|] eqn:Ef.
  - exists e'. apply tar_find_index in Ef as (i & Hi & [Hpb Hpd] & Hfirst).
    assert (He' : In e' es) by (eapply nth_error_In; eassumption).
    destruct (Hnames e He) as (Hnd & Hnb & _).
    destruct (Hnames e' He') as (Hnd' & Hnb' & _).
    repeat split; [now apply strcmp_eq | now apply strcmp_eq |].
    apply In_nth_error in He as [j Hj].
    rewrite (tar_open_inode_nth fuel sb es Ho i e' Hi).
    rewrite (tar_open_inode_nth fuel sb es Ho j e Hj).
    destruct (Nat.le_gt_cases i j) as [Hij|Hij]; [lia|].
    exfalso. apply (Hfirst j e Hij Hj Hp).
  - exfalso. revert Ef. clear -He Hp.
    induction es as [|a es IH]; [destruct He|]. simpl.
    destruct ((strcmp (basename a) (basename e) =? 0)
              && (strcmp (dirname a) (dirname e) =? 0)) eqn:E;
      [discriminate|].
    destruct He as [->|He]; [|now apply IH].
    destruct Hp as [Hb Hd]. rewrite Hb, Hd in E. discriminate.
Qed.

(** X8.  In the index [tar_open] builds, the inode number [2 + i] finds
    the entry at position [i] and no other, and a number below 2 (the root
    has 0) finds nothing. *)
Theorem tarfs_find_by_inode_position (fuel : nat) (sb : super_block)
    (es : list tar_entry) :
  tar_open fuel sb = Ret es ->
  (forall i, tarfs_find_by_inode es (2 + Z.of_nat i) = nth_error es i)
  /\ (forall ino, ino < 2 -> tarfs_find_by_inode es ino = None).
Proof.
  intros Ho. pose proof (tar_open_inode_nth fuel sb es Ho) as Hnum.
  assert (Hfound : forall ino e, tarfs_find_by_inode es ino = Some e ->
                     exists k, nth_error es k = Some e /\ inode e = ino).
  { clear. induction es as [|a es IH]; intros ino e; simpl; [discriminate|].
    destruct (inode a =? ino) eqn:E.
    - intros [= <-]. apply Z.eqb_eq in E. exists 0%nat. auto.
    - intros Hf. apply IH in Hf as (k & Hk & Hi). exists (S k). auto. }
  split.
  - intros i. destruct (nth_error es i) as [e|] eqn:Ei.
    + now apply tarfs_find_by_inode_nth.
    + destruct (tarfs_find_by_inode es (2 + Z.of_nat i)) as [e'|] eqn:Ef;
        [|reflexivity].
      apply Hfound in Ef as (k & Hk & Hi).
      rewrite (Hnum k e' Hk) in Hi. assert (k = i) as -> by lia. congruence.
  - intros ino Hino.
    destruct (tarfs_find_by_inode es ino) as [e'|] eqn:Ef; [|reflexivity].
    apply Hfound in Ef as (k & Hk & Hi).
    rewrite (Hnum k e' Hk) in Hi. lia.
Qed.

End Lookup.

(** ** The layout of the index on the device *)

Lemma mod512_u64 (x : Z) : u64 x mod 512 = x mod 512.
Proof.
  unfold u64. apply Z.mod_mod_divide. exists (2 ^ 55). reflexivity.
Qed.

Lemma mod512_u32 (x : Z) : u32 x mod 512 = x mod 512.
Proof.
  unfold u32. apply Z.mod_mod_divide. exists (2 ^ 23). reflexivity.
Qed.

(** [ALIGN_SECTOR] is the distance to the next sector boundary. *)
Lemma ALIGN_SECTOR_aligned (x : Z) :
  0 <= x -> (x + ALIGN_SECTOR x) mod 512 = 0.
Proof.
  intros Hx. unfold ALIGN_SECTOR. rewrite Z.rem_mod_nonneg by lia.
  pose proof (Z.div_mod x 512 ltac:(lia)) as Hdm.
  pose proof (Z.mod_pos_bound x 512 ltac:(lia)) as Hm.
  destruct (x mod 512 >? 0) eqn:E.
  - apply Z.mod_divide; [lia|]. exists (x / 512 + 1). lia.
  - rewrite Z.gtb_ltb in E. apply Z.ltb_ge in E.
    rewrite Z.add_0_r. lia.
Qed.

Section Layout.
Context {H : gnutar_h}.

(** A property of decoded entries that depends on where they were read:
    it holds along a walk when the place of the next header keeps what the
    property needs. *)
Lemma walk_Forall_from (I : Z -> Prop) (P : tar_entry -> Prop)
    (sb : super_block) :
  (forall off p, I off -> tar_read_entry sb off = Ret (Some p) ->
                 P p /\ I (next_offset p)) ->
  (forall p count, P p -> P (set_inode p count)) ->
  forall es fuel off count,
    I off -> walk fuel sb off count = Ret es -> Forall P es.
Proof.
  intros Hread Hset es.
  induction es as [|q es IH]; intros fuel off count Hoff Hw; constructor;
    apply walk_cons in Hw as (p & f & Hp & -> & -> & Hw);
    destruct (Hread off p Hoff Hp) as [HP HI].
  - now apply Hset.
  - eapply IH; eassumption.
Qed.

Lemma next_offset_aligned (e : tar_entry) :
  0 <= data_offset e < 2 ^ 32 -> 0 <= length e < 2 ^ 32 ->
  next_offset e mod 512 = 0
  /\ data_offset e + length e <= next_offset e
     < data_offset e + length e + 512.
Proof.
  intros Hd Hl. unfold next_offset.
  rewrite (u64_small (data_offset e + length e)) by lia.
  rewrite (s64_small (data_offset e + length e)) by lia.
  pose proof (ALIGN_SECTOR_range (data_offset e + length e)) as Ha.
  rewrite s64_small by lia.
  split; [apply ALIGN_SECTOR_aligned; lia | lia].
Qed.

(** X9.  Every entry of the index [tar_open] builds has its header and its
    payload at a sector boundary: [offset] and [data_offset] are multiples
    of 512. *)
Theorem tar_open_sector_aligned (fuel : nat) (sb : super_block)
    (es : list tar_entry) :
  tar_open fuel sb = Ret es ->
  Forall (fun e => offset e mod 512 = 0 /\ data_offset e mod 512 = 0) es.
Proof.
  rewrite tar_open_walk.
  apply (walk_Forall_from (fun off => off mod 512 = 0));
    [|intros p count Hp; exact Hp | reflexivity].
  intros off p Hoff Hp.
  destruct (tar_read_entry_some sb off p Hp) as (Hd & Hl & _).
  destruct (tar_read_entry_fields sb off p Hp)
    as (full & _ & _ & _ & _ & Ho & Hdo).
  split; [|apply next_offset_aligned; assumption].
  split.
  - rewrite Ho, mod512_u32. exact Hoff.
  - rewrite Hdo, mod512_u32, mod512_u64.
    rewrite Z.add_mod, mod512_u64 by lia.
    rewrite <- Z.add_mod by lia.
    rewrite <- Z.add_assoc, Z.add_mod, Hoff by lia.
    rewrite Z.add_0_l, Z.mod_mod by lia.
    apply ALIGN_SECTOR_aligned. apply u64_range.
Qed.

(** X10.  A run of [tar_open] that returns never goes on from the same
    offset twice, so the index has at most [2^33 + 512] entries. *)
Theorem tar_open_bounded (fuel : nat) (sb : super_block)
    (es : list tar_entry) :
  tar_open fuel sb = Ret es ->
  NoDup (map next_offset es)
  /\ Z.of_nat (List.length es) <= 2 ^ 33 + 512.
Proof.
  rewrite tar_open_walk. intros Hw. split.
  - eapply walk_offsets_NoDup. eassumption.
  - eapply walk_length_bound. eassumption.
Qed.

(** The entry behind [a] in a walk was decoded at the offset after [a]. *)
Lemma walk_nth_next (sb : super_block) (es : list tar_entry) :
  forall fuel off count i a b,
    walk fuel sb off count = Ret es ->
    nth_error es i = Some a -> nth_error es (S i) = Some b ->
    exists p c, tar_read_entry sb (next_offset a) = Ret (Some p)
                /\ b = set_inode p c.
Proof.
  induction es as [|q es IH]; intros fuel off count i a b Hw Ha Hb;
    [destruct i; discriminate|].
  apply walk_cons in Hw as (p & f & Hp & -> & -> & Hw).
  destruct i as [|i]; simpl in Ha, Hb.
  - injection Ha as <-. destruct es as [|q' es]; [discriminate|].
    injection Hb as <-.
    apply walk_cons in Hw as (p' & f' & Hp' & _ & -> & _).
    rewrite next_offset_set_inode. eauto.
  - eapply IH; eassumption.
Qed.

(** Every entry of a walk is a decoded entry with its number put in. *)
Lemma walk_nth_decoded (sb : super_block) (es : list tar_entry) :
  forall fuel off count i a,
    walk fuel sb off count = Ret es ->
    nth_error es i = Some a ->
    exists off' q c, tar_read_entry sb off' = Ret (Some q)
                     /\ a = set_inode q c.
Proof.
  induction es as [|e es IH]; intros fuel off count i a Hw Ha;
    [destruct i; discriminate|].
  apply walk_cons in Hw as (p & f & Hp & -> & -> & Hw).
  destruct i as [|i]; simpl in Ha.
  - injection Ha as <-. eauto.
  - eapply IH; eassumption.
Qed.

(** X11.  In the index [tar_open] builds, when the payload of an entry ends
    at least one sector below 4 GiB, the entry behind it has its header at
    the first sector boundary at or behind the end of that payload, and the
    header it keeps is what [tarfs_read] delivers from there. *)
Theorem tar_open_next_header (fuel : nat) (sb : super_block)
    (es : list tar_entry) (i : nat) (a b : tar_entry) :
  tar_open fuel sb = Ret es ->
  nth_error es i = Some a -> nth_error es (S i) = Some b ->
  data_offset a + length a + 512 <= 2 ^ 32 ->
  data_offset a + length a <= offset b < data_offset a + length a + 512
  /\ offset b mod 512 = 0
  /\ tarfs_read (u64 sizeof_star_header) (offset b) sb
     = Ret (u64 sizeof_star_header, header b).
Proof.
  rewrite tar_open_walk. intros Hw Ha Hb Hend.
  destruct (walk_nth_next sb es _ _ _ i a b Hw Ha Hb) as (p & c & Hp & ->).
  destruct (walk_nth_decoded sb es _ _ _ i a Hw Ha)
    as (off & q & c' & Hq & ->).
  rewrite next_offset_set_inode in Hp.
  cbn [set_inode data_offset length offset header] in *.
  destruct (tar_read_entry_some sb off q Hq) as (Hd & Hl & _).
  destruct (next_offset_aligned q Hd Hl) as (Hal & Hrange).
  destruct (tar_read_entry_fields sb _ p Hp)
    as (full & Hread & _ & _ & _ & Ho & _).
  rewrite u32_small in Ho by lia. rewrite Ho.
  repeat split; try lia; assumption.
Qed.

End Layout.

Lemma tar_open_sector_aligned_witness :
  exists es,
    tar_open (H := gnu) 10 (device 512 archive_a) = Ret es
    /\ Forall (fun e => offset e mod 512 = 0 /\ data_offset e mod 512 = 0) es.
Proof.
  eexists. split; [vm_compute; reflexivity|].
  apply (tar_open_sector_aligned (H := gnu) 10 (device 512 archive_a)).
  vm_compute. reflexivity.
Defined.

Lemma tar_open_bounded_witness :
  exists es,
    tar_open (H := gnu) 10 (device 512 archive_dup) = Ret es
    /\ NoDup (map next_offset es).
Proof.
  eexists. split; [vm_compute; reflexivity|].
  apply (tar_open_bounded (H := gnu) 10 (device 512 archive_dup)).
  vm_compute. reflexivity.
Defined.

Lemma tar_open_next_header_witness :
  exists a b,
    tar_open (H := gnu) 10 (device 512 archive_a) = Ret [a; b]
    /\ offset b mod 512 = 0
    /\ tarfs_read (u64 (sizeof_star_header (gnutar_h := gnu))) (offset b)
                  (device 512 archive_a)
       = Ret (u64 (sizeof_star_header (gnutar_h := gnu)), header b).
Proof.
  do 2 eexists. split; [vm_compute; reflexivity|].
  eapply (tar_open_next_header (H := gnu) 10 (device 512 archive_a) _ 0).
  - vm_compute. reflexivity.
  - reflexivity.
  - reflexivity.
  - simpl. lia.
Defined.

Lemma tar_find_exact_witness :
  exists es e,
    tar_open (H := gnu) 10 (device 512 archive_a) = Ret es
    /\ tar_find es (list_byte_of_string "a") (list_byte_of_string "b.txt")
       = Some e
    /\ In e es
    /\ dirname e = list_byte_of_string "a"
    /\ basename e = list_byte_of_string "b.txt".
Proof.
  do 2 eexists. split; [vm_compute; reflexivity|].
  split; [vm_compute; reflexivity|].
  eapply (tar_find_exact (H := gnu) 10 (device 512 archive_a) _
            (list_byte_of_string "a") (list_byte_of_string "b.txt")).
  - vm_compute. reflexivity.
  - repeat constructor; discriminate.
  - repeat constructor; discriminate.
  - vm_compute. reflexivity.
Defined.

Lemma tar_find_own_path_witness :
  exists e1 e2 e',
    tar_open (H := gnu) 10 (device 512 archive_dup) = Ret [e1; e2]
    /\ tar_find [e1; e2] (dirname e2) (basename e2) = Some e'
    /\ inode e' <= inode e2.
Proof.
  assert (Ho : exists e1 e2,
             tar_open (H := gnu) 10 (device 512 archive_dup) = Ret [e1; e2])
    by (do 2 eexists; vm_compute; reflexivity).
  destruct Ho as (e1 & e2 & Ho). exists e1, e2.
  destruct (tar_find_own_path (H := gnu) 10 (device 512 archive_dup)
              [e1; e2] e2 Ho (or_intror (or_introl eq_refl)))
    as (e' & Hf & _ & _ & Hle).
  exists e'. split; [exact Ho|]. split; assumption.
Defined.

Lemma tarfs_find_by_inode_position_witness :
  exists es,
    tar_open (H := gnu) 10 (device 512 archive_a) = Ret es
    /\ tarfs_find_by_inode es (2 + Z.of_nat 1) = nth_error es 1
    /\ tarfs_find_by_inode es ROOT_INO = None.
Proof.
  assert (Ho : exists es,
             tar_open (H := gnu) 10 (device 512 archive_a) = Ret es)
    by (eexists; vm_compute; reflexivity).
  destruct Ho as (es & Ho). exists es. split; [exact Ho|].
  destruct (tarfs_find_by_inode_position (H := gnu) 10
              (device 512 archive_a) es Ho) as [Hpos Hlow].
  split; [apply Hpos | apply Hlow; unfold ROOT_INO; lia].
Defined.

(** ** Modes and paths the driver derives *)

(** Under a mask of 32 or of 16 bits the conversion to the narrower type
    does not show. *)
Lemma land_u32 (x M : Z) :
  Z.land (Z.ones 32) M = M -> Z.land (u32 x) M = Z.land x M.
Proof.
  intros HM. unfold u32. rewrite <- Z.land_ones by lia.
  rewrite <- Z.land_assoc, HM. reflexivity.
Qed.

Lemma land_u16 (x M : Z) :
  Z.land (Z.ones 16) M = M -> Z.land (u16 x) M = Z.land x M.
Proof.
  intros HM. unfold u16. rewrite <- Z.land_ones by lia.
  rewrite <- Z.land_assoc, HM. reflexivity.
Qed.

Section Modes.
Context {H : gnutar_h}.

(** The file types are multiples of 4096 inside [S_IFMT]. *)
Lemma tar_type_to_posix_bits (flag : byte) :
  Z.land (tar_type_to_posix flag) 4095 = 0
  /\ Z.land (tar_type_to_posix flag) S_IFMT = tar_type_to_posix flag.
Proof.
  unfold tar_type_to_posix.
  repeat match goal with
         | |- context [if ?b then _ else _] => destruct b
         end; split; reflexivity.
Qed.

Lemma tarfs_entry_mode_land (entry : tar_entry) (M : Z) :
  Z.land (Z.ones 32) M = M ->
  Z.land (tarfs_entry_mode entry) M
  = Z.lor (Z.land (mode entry) (Z.land (Z.lnot WRITE_MASK) M))
          (Z.land (tar_type_to_posix (typeflag (header entry))) M).
Proof.
  intros HM. unfold tarfs_entry_mode.
  rewrite land_u32, Z.land_lor_distr_l, land_u32 by assumption.
  rewrite <- Z.land_assoc. reflexivity.
Qed.

(** X12.  The mode the driver gives an entry has no write bit; its
    permission bits are those of the header without the write bits; and
    when the mode of the header has permission bits only, its file type is
    the one [tar_type_to_posix] gives the type flag. *)
Theorem tarfs_entry_mode_bits (entry : tar_entry) :
  Z.land (tarfs_entry_mode entry) WRITE_MASK = 0
  /\ Z.land (tarfs_entry_mode entry) 4095 = Z.land (mode entry) 3949
  /\ (0 <= mode entry < 4096 ->
      Z.land (tarfs_entry_mode entry) S_IFMT
      = tar_type_to_posix (typeflag (header entry))).
Proof.
  destruct (tar_type_to_posix_bits (typeflag (header entry))) as [Hlow Hfmt].
  repeat split.
  - rewrite tarfs_entry_mode_land by reflexivity.
    change (Z.land (Z.lnot WRITE_MASK) WRITE_MASK) with 0.
    rewrite Z.land_0_r, Z.lor_0_l.
    replace WRITE_MASK with (Z.land 4095 WRITE_MASK) by reflexivity.
    rewrite Z.land_assoc, Hlow. reflexivity.
  - rewrite tarfs_entry_mode_land by reflexivity.
    rewrite Hlow, Z.lor_0_r. reflexivity.
  - intros Hm. rewrite tarfs_entry_mode_land by reflexivity.
    rewrite Hfmt.
    change (Z.land (Z.lnot WRITE_MASK) S_IFMT) with S_IFMT.
    replace (mode entry) with (Z.land (mode entry) (Z.ones 12)).
    + rewrite <- Z.land_assoc.
      change (Z.land (Z.ones 12) S_IFMT) with 0.
      rewrite Z.land_0_r. reflexivity.
    + rewrite Z.land_ones by lia. apply Z.mod_small.
      change (2 ^ 12) with 4096. lia.
Qed.

(** X13.  For a decoded entry, [tarfs_full_name] puts directory and base
    name together again to the name [build_name] returned; only a name whose
    single slash is its first byte comes back without that slash. *)
Theorem tarfs_full_name_rebuilds (sb : super_block) (off : Z)
    (e : tar_entry) (full : list byte) :
  tar_read_entry sb off = Ret (Some e) ->
  build_name (header e) = Ret full ->
  Z.of_nat (List.length full) + 2 < 2 ^ 64 ->
  (strrchr full x2f <> Some 0 -> tarfs_full_name e = full)
  /\ (strrchr full x2f = Some 0 -> tarfs_full_name e = skipn 1 full).
Proof.
  intros Hr Hb Hlen.
  destruct (tar_read_entry_fields sb off e Hr)
    as (full' & _ & Hb' & Hd & Hn & _).
  assert (full' = full) as -> by congruence.
  pose proof (build_name_nul_free _ _ Hb) as Hnul.
  unfold tarfs_full_name, strlen. rewrite Hd, Hn.
  destruct (strrchr full x2f) as [i|] eqn:Ei.
  - destruct (strrchr_some full x2f Hnul i Ei) as (Hi & Hsplit & _).
    assert (Hdn : Forall (fun x => x <> x00) (firstn (Z.to_nat i) full))
      by now apply Forall_firstn_any.
    assert (Hbn : Forall (fun x => x <> x00) (skipn (Z.to_nat (i + 1)) full))
      by now apply Forall_skipn_any.
    rewrite !c_str_nul_free by assumption.
    assert (Hl : List.length full
                 = (List.length (firstn (Z.to_nat i) full) + 1
                    + List.length (skipn (Z.to_nat (i + 1)) full))%nat).
    { rewrite Hsplit at 1. rewrite length_app. simpl. lia. }
    assert (Hil : (Z.to_nat i < List.length full)%nat)
      by (rewrite length_firstn in Hl; lia).
    assert (Hfl : List.length (firstn (Z.to_nat i) full) = Z.to_nat i)
      by (rewrite length_firstn; lia).
    split.
    + intros Hne. assert (0 < i) by (destruct (Z.eq_dec i 0); [congruence|lia]).
      destruct (Z.of_nat (List.length (firstn (Z.to_nat i) full)) <? 1) eqn:E;
        [apply Z.ltb_lt in E; lia|].
      rewrite (u64_small (_ + Z.of_nat _)) by lia.
      rewrite u64_small by lia.
      rewrite firstn_all2; [symmetry; exact Hsplit|].
      rewrite length_app. simpl. lia.
    + intros [= ->]. change (Z.to_nat 0) with 0%nat.
      change (Z.to_nat (0 + 1)) with 1%nat.
      cbn [firstn List.length Z.of_nat]. change (0 <? 1) with true.
      cbn match. rewrite Nat2Z.id. apply firstn_all.
  - rewrite (c_str_nul_free full) by assumption.
    cbn [c_str List.length Z.of_nat].
    change (0 <? 1) with true. cbn match. rewrite Nat2Z.id.
    split; [intros _; apply firstn_all | discriminate].
Qed.

End Modes.

Lemma tarfs_full_name_rebuilds_witness :
  exists e,
    tar_read_entry (H := gnu) (device 512 archive_a) 512 = Ret (Some e)
    /\ tarfs_full_name e = list_byte_of_string "a/b.txt".
Proof.
  eexists. split; [vm_compute; reflexivity|].
  eapply (tarfs_full_name_rebuilds (H := gnu) (device 512 archive_a) 512).
  - vm_compute. reflexivity.
  - vm_compute. reflexivity.
  - vm_compute. reflexivity.
  - vm_compute. discriminate.
Defined.

(** ** Listing a directory *)

Lemma s32_small (x : Z) : 0 <= x < 2 ^ 31 -> s32 x = x.
Proof.
  intros Hx. unfold s32. rewrite u32_small by lia.
  destruct (x <? 2 ^ 31) eqn:E; [reflexivity | apply Z.ltb_ge in E; lia].
Qed.

(** An actor that takes every record gets, from the loop, the entries of
    the directory in the order of the list. *)
Lemma tarfs_readdir_loop_all (actor : actor_t) (p : list byte) :
  (forall l d, actor l d = true) ->
  forall es ctx,
    Forall (fun e => Forall (fun x => x <> x00) (basename e)
                     /\ Z.of_nat (List.length (basename e)) < 2 ^ 31) es ->
    0 <= pos ctx -> pos ctx + Z.of_nat (List.length es) < 2 ^ 63 ->
    exists ctx',
      tarfs_readdir_loop actor (Some p) es ctx = Ret ctx'
      /\ map shown (taken ctx')
         = map shown (taken ctx)
           ++ map (fun e => (basename e, inode e))
                  (filter (fun e => strcmp p (dirname e) =? 0) es)
      /\ pos ctx'
         = pos ctx
           + Z.of_nat (List.length
                         (filter (fun e => strcmp p (dirname e) =? 0) es)).
Proof.
  intros Hacc es. induction es as [|e es IH]; intros ctx Hes Hpos Hb.
  - exists ctx. simpl. rewrite app_nil_r, Z.add_0_r. auto.
  - inversion Hes as [|? ? [Hnul Hlen] Hes']; subst.
    cbn [tarfs_readdir_loop filter]. simpl List.length in Hb.
    destruct (strcmp p (dirname e) =? 0).
    + unfold dir_emit. rewrite Hacc. cbn [pos taken].
      rewrite (s64_small (pos ctx + 1)) by lia.
      assert (Hname : firstn (Z.to_nat (s32 (strlen (basename e))))
                             (basename e) = basename e).
      { unfold strlen. rewrite c_str_nul_free by assumption.
        rewrite s32_small by lia. rewrite Nat2Z.id. apply firstn_all. }
      rewrite Hname.
      match goal with
      | |- context [tarfs_readdir_loop actor (Some p) es ?c] =>
        destruct (IH c) as (ctx' & Hloop & Htaken & Hp); try assumption;
          cbn [pos taken]; try lia
      end.
      exists ctx'. split; [exact Hloop|]. split.
      * rewrite Htaken. cbn [taken]. rewrite map_app, <- app_assoc.
        reflexivity.
      * rewrite Hp. cbn [pos List.length]. lia.
    + apply IH; try assumption; lia.
Qed.

(** Whatever the actor does, the loop does not move the position back. *)
Lemma tarfs_readdir_loop_pos (actor : actor_t) (dir_path : option (list byte)) :
  forall es ctx ctx',
    0 <= pos ctx -> pos ctx + Z.of_nat (List.length es) < 2 ^ 63 ->
    tarfs_readdir_loop actor dir_path es ctx = Ret ctx' ->
    pos ctx <= pos ctx'.
Proof.
  intros es. induction es as [|e es IH]; intros ctx ctx' Hpos Hb.
  - intros [= <-]. lia.
  - cbn [tarfs_readdir_loop]. simpl List.length in Hb.
    destruct dir_path as [p|]; [|discriminate].
    destruct (strcmp p (dirname e) =? 0).
    + unfold dir_emit. cbn [pos taken].
      rewrite (s64_small (pos ctx + 1)) by lia.
      destruct (actor _ _).
      * intros Hl. apply IH in Hl; cbn [pos] in *; lia.
      * intros [= <-]. cbn [pos]. lia.
    + intros Hl. apply IH in Hl; lia.
Qed.

Section Listing.
Context {H : gnutar_h}.

(** X14.  For the index [tar_open] builds and a directory whose path the
    driver can build, a first call of [tarfs_readdir] with an actor that
    takes every record emits [.], [..] and then the name and inode number of
    every entry whose directory is that path, in archive order and nothing
    else, and leaves the position at 2 plus their number.  (Base names are
    shorter than [2^31], the range of the [int] the name length is put
    in.) *)
Theorem tarfs_readdir_lists (fuel : nat) (sb : super_block)
    (es : list tar_entry) (actor : actor_t) (ino parent : Z)
    (p : list byte) :
  tar_open fuel sb = Ret es ->
  build_lookup_path ino es = Some p ->
  (forall l d, actor l d = true) ->
  Forall (fun e => Z.of_nat (List.length (basename e)) < 2 ^ 31) es ->
  exists ctx',
    tarfs_readdir actor es ino parent {| pos := 0; taken := [] |}
    = Ret (0, ctx')
    /\ map shown (taken ctx')
       = (list_byte_of_string ".", ino)
         :: (list_byte_of_string "..", parent)
         :: map (fun e => (basename e, inode e))
                (filter (fun e => strcmp p (dirname e) =? 0) es)
    /\ pos ctx'
       = 2 + Z.of_nat (List.length
                         (filter (fun e => strcmp p (dirname e) =? 0) es)).
Proof.
  intros Ho Hpath Hacc Hlen.
  pose proof (Hnames := walk_Forall
    (fun e => Forall (fun x => x <> x00) (dirname e)
              /\ Forall (fun x => x <> x00) (basename e)
              /\ Forall (fun x => x <> x2f) (basename e)) sb
    (fun off p => tar_read_entry_names sb off p)
    (fun p count Hp => Hp) es fuel 0 2 Ho).
  pose proof (walk_length_bound sb es fuel 0 2 Ho) as Hbound.
  assert (Hes : Forall (fun e => Forall (fun x => x <> x00) (basename e)
                         /\ Z.of_nat (List.length (basename e)) < 2 ^ 31) es).
  { rewrite Forall_forall in *. intros e He.
    destruct (Hnames e He) as (_ & Hn & _). split; [assumption|].
    now apply Hlen. }
  unfold tarfs_readdir. rewrite Hpath. cbn [pos].
  change (0 >? 0) with false. cbn match.
  unfold dir_emit_dots, dir_emit. cbn [pos taken].
  change (0 =? 0) with true. cbn match. rewrite Hacc. cbn [pos taken].
  change (1 =? 1) with true. cbn match. rewrite Hacc. cbn [negb pos taken].
  match goal with
  | |- context [tarfs_readdir_loop actor (Some p) es ?c] =>
    destruct (tarfs_readdir_loop_all actor p Hacc es c Hes)
      as (ctx' & Hloop & Htaken & Hp); cbn [pos]; try lia
  end.
  exists ctx'. rewrite Hloop. cbn [bind]. split; [reflexivity|].
  split; [rewrite Htaken; reflexivity | rewrite Hp; reflexivity].
Qed.

(** X15.  [tarfs_readdir] cannot be resumed: once a first call has emitted
    any record, every further call on that context emits nothing and leaves
    it as it is, also when the actor had refused a record and entries are
    still missing. *)
Theorem tarfs_readdir_once (fuel : nat) (sb : super_block)
    (es : list tar_entry) (actor actor' : actor_t) (ino parent parent' r : Z)
    (ctx1 : dir_context) :
  tar_open fuel sb = Ret es ->
  tarfs_readdir actor es ino parent {| pos := 0; taken := [] |}
  = Ret (r, ctx1) ->
  taken ctx1 <> [] ->
  tarfs_readdir actor' es ino parent' ctx1 = Ret (0, ctx1).
Proof.
  intros Ho Hfirst Htaken.
  pose proof (walk_length_bound sb es fuel 0 2 Ho) as Hbound.
  assert (Hpos : 0 < pos ctx1).
  { revert Hfirst. unfold tarfs_readdir. cbn [pos].
    change (0 >? 0) with false. cbn match.
    unfold dir_emit_dots, dir_emit. cbn [pos taken].
    change (0 =? 0) with true. cbn match.
    destruct (actor [] _); cbn [pos taken negb].
    - change (1 =? 1) with true. cbn match.
      destruct (actor _ _); cbn [pos taken negb].
      + intros Hl. step_in Hl. injection Hl as _ <-.
        apply tarfs_readdir_loop_pos in E; cbn [pos] in *; lia.
      + intros [= _ <-]. cbn [pos]. lia.
    - intros [= _ <-]. exfalso. now apply Htaken. }
  unfold tarfs_readdir.
  destruct (pos ctx1 >? 0) eqn:E; [reflexivity|].
  rewrite Z.gtb_ltb in E. apply Z.ltb_ge in E. lia.
Qed.

End Listing.

Lemma tarfs_readdir_lists_witness :
  exists es,
    tar_open (H := gnu) 10 (device 512 archive_a) = Ret es
    /\ exists ctx',
         tarfs_readdir (fun _ _ => true) es ROOT_INO ROOT_INO
                       {| pos := 0; taken := [] |}
         = Ret (0, ctx')
         /\ map shown (taken ctx')
            = (list_byte_of_string ".", ROOT_INO)
              :: (list_byte_of_string "..", ROOT_INO)
              :: map (fun e => (basename e, inode e))
                     (filter (fun e => strcmp [] (dirname e) =? 0) es)
         /\ pos ctx'
            = 2 + Z.of_nat
                    (List.length
                       (filter (fun e => strcmp [] (dirname e) =? 0) es)).
Proof.
  eexists. split; [vm_compute; reflexivity|].
  apply (tarfs_readdir_lists (H := gnu) 10 (device 512 archive_a) _
           (fun _ _ => true) ROOT_INO ROOT_INO []).
  - vm_compute. reflexivity.
  - reflexivity.
  - intros l d. reflexivity.
  - repeat constructor; vm_compute; reflexivity.
Defined.

Lemma tarfs_readdir_once_witness :
  exists es ctx1,
    tar_open (H := gnu) 10 (device 512 archive_a) = Ret es
    /\ tarfs_readdir (fun l _ => (List.length l <? 2)%nat) es
                     ROOT_INO ROOT_INO {| pos := 0; taken := [] |}
       = Ret (0, ctx1)
    /\ tarfs_readdir (fun _ _ => true) es ROOT_INO ROOT_INO ctx1
       = Ret (0, ctx1).
Proof.
  do 2 eexists. split; [vm_compute; reflexivity|].
  split; [vm_compute; reflexivity|].
  eapply (tarfs_readdir_once (H := gnu) 10 (device 512 archive_a) _
            (fun l _ => (List.length l <? 2)%nat) (fun _ _ => true)
            ROOT_INO ROOT_INO ROOT_INO 0).
  - vm_compute. reflexivity.
  - vm_compute. reflexivity.
  - discriminate.
Defined.

(** ** Looking a name up and reading a file *)

Lemma tarfs_find_by_inode_some (es : list tar_entry) :
  forall ino e,
    tarfs_find_by_inode es ino = Some e ->
    exists k, nth_error es k = Some e /\ inode e = ino.
Proof.
  induction es as [|a es IH]; intros ino e; simpl; [discriminate|].
  destruct (inode a =? ino) eqn:E.
  - intros [= <-]. apply Z.eqb_eq in E. exists 0%nat. auto.
  - intros Hf. apply IH in Hf as (k & Hk & Hi). exists (S k). auto.
Qed.

Lemma tar_find_in (es : list tar_entry) (dir base : list byte)
    (e : tar_entry) :
  In e es -> path_is e dir base -> exists e', tar_find es dir base = Some e'.
Proof.
  intros He [Hb Hd]. induction es as [|a es IH]; [destruct He|]. simpl.
  destruct ((strcmp (basename a) base =? 0) && (strcmp (dirname a) dir =? 0))
    eqn:E; [eauto|].
  destruct He as [->|He]; [|now apply IH].
  rewrite Hb, Hd in E. discriminate.
Qed.

Lemma tar_find_null_ret (es : list tar_entry) (base : list byte) :
  forall o, tar_find_null es base = Ret o -> o = None.
Proof.
  induction es as [|a es IH]; intros o; simpl; [now intros [= <-]|].
  destruct (strcmp (basename a) base =? 0); [discriminate | apply IH].
Qed.


Section Files.
Context {H : gnutar_h}.

(** X16.  What [tarfs_readdir] lists can be looked up: for a directory whose
    path the driver can build and an entry of the index in that directory,
    [tarfs_lookup] of the entry's base name delivers the inode of an entry
    with the same directory and base name, this entry or an earlier one. *)
Theorem tarfs_lookup_listed (fuel : nat) (sb : super_block)
    (es : list tar_entry) (ino : Z) (p : list byte) (e : tar_entry) :
  tar_open fuel sb = Ret es ->
  build_lookup_path ino es = Some p ->
  In e es -> strcmp p (dirname e) = 0 ->
  exists e',
    tarfs_lookup true es ino (basename e) = Ret (tarfs_build_inode true e')
    /\ In e' es
    /\ dirname e' = dirname e /\ basename e' = basename e
    /\ inode e' <= inode e.
Proof.
  intros Ho Hpath He Hlisted.
  pose proof (Hnames := walk_Forall
    (fun e => Forall (fun x => x <> x00) (dirname e)
              /\ Forall (fun x => x <> x00) (basename e)
              /\ Forall (fun x => x <> x2f) (basename e)) sb
    (fun off p => tar_read_entry_names sb off p)
    (fun p count Hp => Hp) es fuel 0 2 Ho).
  rewrite Forall_forall in Hnames.
  assert (Hp : path_is e p (basename e))
    by (split; [apply strcmp_refl | now apply strcmp_zero_sym]).
  destruct (tar_find_in es p (basename e) e He Hp) as [e' Hf].
  exists e'. unfold tarfs_lookup. rewrite Hpath. cbn [bind]. rewrite Hf.
  split; [reflexivity|].
  apply tar_find_index in Hf as (i & Hi & [Hpb Hpd] & Hfirst).
  assert (He' : In e' es) by (eapply nth_error_In; eassumption).
  destruct (Hnames e He) as (Hnd & Hnb & _).
  destruct (Hnames e' He') as (Hnd' & Hnb' & _).
  split; [assumption|]. split; [|split].
  - apply strcmp_zero_iff in Hpd, Hlisted.
    rewrite <- (c_str_nul_free (dirname e')), <- (c_str_nul_free (dirname e))
      by assumption.
    congruence.
  - now apply strcmp_eq.
  - apply In_nth_error in He as [j Hj].
    rewrite (tar_open_inode_nth fuel sb es Ho i e' Hi).
    rewrite (tar_open_inode_nth fuel sb es Ho j e Hj).
    destruct (Nat.le_gt_cases i j) as [Hij|Hij]; [lia|].
    exfalso. apply (Hfirst j e Hij Hj Hp).
Qed.

(** X17.  An inode [tarfs_lookup] delivers belongs to an entry of the index
    that has the name looked up in the directory looked into; its number is
    that entry's and never below 2, its size is the length of the payload,
    and its mode has no write bit. *)
Theorem tarfs_lookup_sound (fuel : nat) (sb : super_block)
    (es : list tar_entry) (new_inode_ok : bool) (ino : Z) (name : list byte)
    (i : inode_t) :
  tar_open fuel sb = Ret es ->
  tarfs_lookup new_inode_ok es ino name = Ret (Some i) ->
  exists e p,
    In e es /\ build_lookup_path ino es = Some p /\ path_is e p name
    /\ i_ino i = inode e /\ 2 <= i_ino i
    /\ i_size i = length e
    /\ Z.land (i_mode i) WRITE_MASK = 0.
Proof.
  intros Ho Hl. unfold tarfs_lookup in Hl.
  destruct (build_lookup_path ino es) as [p|] eqn:Hpath.
  - cbn [bind] in Hl. destruct (tar_find es p name) as [e|] eqn:Hf;
      [|discriminate].
    apply tar_find_index in Hf as (k & Hk & Hp & _).
    exists e, p. unfold tarfs_build_inode in Hl.
    destruct (negb new_inode_ok); [discriminate|].
    injection Hl as <-. cbn [i_ino i_size i_mode].
    rewrite tar_open_walk in Ho.
    destruct (walk_nth_decoded sb es _ _ _ k e Ho Hk)
      as (off & q & c & Hq & Hc).
    destruct (tar_read_entry_some sb off q Hq) as (_ & Hlen & _).
    assert (Hle : length e = length q) by (rewrite Hc; reflexivity).
    split; [eapply nth_error_In; eassumption|].
    split; [reflexivity|]. split; [assumption|]. split; [reflexivity|].
    split; [|split].
    + rewrite <- tar_open_walk in Ho.
      rewrite (tar_open_inode_nth fuel sb es Ho k e Hk). lia.
    + apply s64_small. lia.
    + rewrite land_u16 by reflexivity.
      rewrite tarfs_entry_mode_land by reflexivity.
      change (Z.land (Z.lnot WRITE_MASK) WRITE_MASK) with 0.
      rewrite Z.land_0_r, Z.lor_0_l.
      destruct (tar_type_to_posix_bits (typeflag (header e))) as [Hlow _].
      replace WRITE_MASK with (Z.land 4095 WRITE_MASK) by reflexivity.
      rewrite Z.land_assoc, Hlow. reflexivity.
  - step_in Hl. apply tar_find_null_ret in E. subst a. discriminate.
Qed.

(** X18.  In the index [tar_open] builds, [tarfs_file_read] for an inode
    number that no entry has (the root's 0, 1, or a number behind the last
    entry) returns [-ENOENT], leaves the position alone and delivers no
    byte. *)
Theorem tarfs_file_read_no_entry (fuel : nat) (sb : super_block)
    (es : list tar_entry) (ino count fpos not_copied : Z) :
  tar_open fuel sb = Ret es ->
  ino < 2 \/ 2 + Z.of_nat (List.length es) <= ino ->
  tarfs_file_read sb es ino count fpos not_copied = Ret (- ENOENT, fpos, []).
Proof.
  intros Ho Hino. unfold tarfs_file_read.
  destruct es as [|a es]; [reflexivity|].
  destruct (tarfs_find_by_inode (a :: es) ino) as [e|] eqn:Ef;
    [|reflexivity].
  apply tarfs_find_by_inode_some in Ef as (k & Hk & Hi).
  rewrite (tar_open_inode_nth fuel sb _ Ho k e Hk) in Hi.
  assert (k < List.length (a :: es))%nat
    by (apply nth_error_Some; congruence).
  lia.
Qed.


End Files.

Lemma tarfs_lookup_listed_witness :
  exists a b,
    tar_open (H := gnu) 10 (device 512 archive_a) = Ret [a; b]
    /\ exists e',
         tarfs_lookup (H := gnu) true [a; b] (inode a) (basename b)
         = Ret (tarfs_build_inode (H := gnu) true e')
         /\ In e' [a; b]
         /\ dirname e' = dirname b /\ basename e' = basename b
         /\ inode e' <= inode b.
Proof.
  do 2 eexists. split; [vm_compute; reflexivity|].
  eapply (tarfs_lookup_listed (H := gnu) 10 (device 512 archive_a)).
  - vm_compute. reflexivity.
  - vm_compute. reflexivity.
  - right. left. reflexivity.
  - vm_compute. reflexivity.
Defined.

Lemma tarfs_lookup_sound_witness :
  exists es i,
    tar_open (H := gnu) 10 (device 512 archive_a) = Ret es
    /\ tarfs_lookup (H := gnu) true es ROOT_INO (list_byte_of_string "a")
       = Ret (Some i)
    /\ exists e p,
         In e es /\ build_lookup_path ROOT_INO es = Some p
         /\ path_is e p (list_byte_of_string "a")
         /\ i_ino i = inode e /\ 2 <= i_ino i
         /\ i_size i = length e
         /\ Z.land (i_mode i) WRITE_MASK = 0.
Proof.
  do 2 eexists. split; [vm_compute; reflexivity|].
  split; [vm_compute; reflexivity|].
  eapply (tarfs_lookup_sound (H := gnu) 10 (device 512 archive_a) _ true).
  - vm_compute. reflexivity.
  - vm_compute. reflexivity.
Defined.

Lemma tarfs_file_read_no_entry_witness :
  exists es,
    tar_open (H := gnu) 10 (device 512 archive_a) = Ret es
    /\ tarfs_file_read (device 512 archive_a) es ROOT_INO 10 0 0
       = Ret (- ENOENT, 0, []).
Proof.
  eexists. split; [vm_compute; reflexivity|].
  eapply (tarfs_file_read_no_entry (H := gnu) 10 (device 512 archive_a)).
  - vm_compute. reflexivity.
  - left. unfold ROOT_INO. lia.
Defined.

(** * Indexing, stated on the bytes of the archive *)

(** ** Number texts *)













(** ** Well-formed headers *)



Section WellFormed.
Context {H : gnutar_h}.









End WellFormed.



(** * The name and the kind of an entry *)

Section Kind.
Context {H : gnutar_h}.






End Kind.


